(** * prober/icmp.go: the ICMP echo probe of the blackbox exporter

    A shallow embedding of [getICMPSequence] and [ProbeICMP] and the
    properties of the probe checked against it.

    Everything the probe calls outside of its own file (the context, the
    clock, the resolver, the raw socket, the ICMP codec, the logger) is an
    explicit environment: a record [World] of what those calls answer, and
    a [State] that collects what the probe did to them. *)

From Stdlib Require Import ZArith Lia Bool.
From Stdlib Require Import Strings.String Strings.Byte.
From stdpp Require Import base tactics option list functions.

Local Open Scope Z_scope.

(** ** Bytes and byte slices *)

Abbreviation bytes := (list byte).

#[global] Instance byte_eq_dec : EqDecision byte := Byte.byte_eq_dec.
#[global] Instance string_eq_dec : EqDecision string := String.string_dec.

Definition byte_to_Z (b : byte) : Z := Z.of_N (Byte.to_N b).

(** [byte(x)]: conversion of an integer to a byte keeps the low 8 bits. *)
Definition byte_of_Z (z : Z) : byte :=
  match Byte.of_N (Z.to_N (z mod 256)) with
  | Some b => b
  | None => x00
  end.

(** [bytes.Compare(a, b)]: lexicographic comparison, -1, 0 or 1. *)
Fixpoint bytes_Compare (a b : bytes) : Z :=
  match a, b with
  | [], [] => 0
  | [], _ :: _ => -1
  | _ :: _, [] => 1
  | x :: a', y :: b' =>
      if byte_to_Z x <? byte_to_Z y then -1
      else if byte_to_Z y <? byte_to_Z x then 1
      else bytes_Compare a' b'
  end.

(** [make([]byte, n)] *)
Definition make_bytes (n : nat) : bytes := replicate n x00.

(** ** Time

    A [time.Time] is an instant, counted in nanoseconds from the zero
    value of the type; a [time.Duration] is a signed 64-bit count of
    nanoseconds. *)

Definition Time := Z.
Definition Duration := Z.

Definition zeroTime : Time := 0.
Definition minDuration : Duration := - 2 ^ 63.
Definition maxDuration : Duration := 2 ^ 63 - 1.

(** [t.Sub(u)]: the difference, saturated to the range of a Duration. *)
Definition Time_Sub (t u : Time) : Duration :=
  let d := t - u in
  if d <? minDuration then minDuration
  else if maxDuration <? d then maxDuration
  else d.

(** [t.Add(d)] *)
Definition Time_Add (t : Time) (d : Duration) : Time := t + d.

(** [t.IsZero()] *)
Definition Time_IsZero (t : Time) : bool := t =? zeroTime.

(** ** Addresses *)

(** [net.IPAddr] *)
Record IPAddr := mkIPAddr { IP : bytes; Zone : string }.

Definition v4InV6Prefix : bytes :=
  [x00; x00; x00; x00; x00; x00; x00; x00; x00; x00; xff; xff].

(** [ip.To4()]: the 4-byte form of an IPv4 address, [None] for [nil]. *)
Definition IP_To4 (ip : bytes) : option bytes :=
  if (length ip =? 4)%nat then Some ip
  else if (length ip =? 16)%nat && bool_decide (take 12 ip = v4InV6Prefix)
       then Some (drop 12 ip)
       else None.

(** ** ICMP messages (golang.org/x/net/icmp, ipv4, ipv6) *)

(** [icmp.Type] is an interface implemented by [ipv4.ICMPType] and
    [ipv6.ICMPType]; two values are equal when both the dynamic type and
    the number agree. *)
Inductive ICMPType :=
| ipv4_ICMPType (n : Z)
| ipv6_ICMPType (n : Z).

#[global] Instance ICMPType_eq_dec : EqDecision ICMPType.
Proof. solve_decision. Defined.

Definition ipv4_ICMPTypeEcho : ICMPType := ipv4_ICMPType 8.
Definition ipv4_ICMPTypeEchoReply : ICMPType := ipv4_ICMPType 0.
Definition ipv6_ICMPTypeEchoRequest : ICMPType := ipv6_ICMPType 128.
Definition ipv6_ICMPTypeEchoReply : ICMPType := ipv6_ICMPType 129.

(** [icmp.Echo] *)
Record Echo := mkEcho { ID : Z; Seq : Z; Data : bytes }.

(** [icmp.Message] with an [*icmp.Echo] body *)
Record Message := mkMessage { Type_ : ICMPType; Code : Z; Body : Echo }.

Definition set_Type (m : Message) (t : ICMPType) : Message :=
  {| Type_ := t; Code := Code m; Body := Body m |}.

(** ** Errors and socket reads *)

(** A Go [error] as far as the probe looks at it: whether it implements
    [net.Error], and what its [Timeout()] answers. *)
Record error := mkError { is_net_Error : bool; Timeout : bool }.

(** [nerr, ok := err.(net.Error); ok && nerr.Timeout()] *)
Definition is_timeout (e : error) : bool := is_net_Error e && Timeout e.

(** The error of a read whose deadline has passed. *)
Definition errTimeout : error := {| is_net_Error := true; Timeout := true |}.

(** What the network has in store for one [ReadFrom] call: a failure, or a
    datagram with the string form of its sender ([peer.String()]). *)
Inductive Arrival :=
| ArrError (e : error)
| ArrPacket (data : bytes) (peer : string).

(** ** The environment of a probe *)

(** [level.Info], [level.Warn], [level.Error] *)
Inductive Level := level_Info | level_Warn | level_Error.

(** What the probe does to its environment, in order. Log lines are kept
    by level and message; their other key/value pairs are left out. *)
Inductive Event :=
| EvLog (lvl : Level) (msg : string)
| EvResolve
| EvListen (network address : string)
| EvMarshal (m : Message)
| EvWriteTo (b : bytes) (dst : IPAddr)
| EvSetReadDeadline (t : Time)
| EvReadFrom
| EvClose.

#[global] Instance Level_eq_dec : EqDecision Level.
Proof. solve_decision. Defined.
#[global] Instance IPAddr_eq_dec : EqDecision IPAddr.
Proof. solve_decision. Defined.
#[global] Instance Echo_eq_dec : EqDecision Echo.
Proof. solve_decision. Defined.
#[global] Instance Message_eq_dec : EqDecision Message.
Proof. solve_decision. Defined.
#[global] Instance Event_eq_dec : EqDecision Event.
Proof. solve_decision. Defined.

(** What the calls of the probe answer. An operation that can only fail or
    succeed answers a boolean ([true]: the error is [nil]); one that
    yields a value answers an option ([None]: an error). *)
Record World := mkWorld {
  (** [ctx.Deadline()]: the deadline and the [ok] flag *)
  Deadline : Time * bool;
  (** [time.Now()], by the number of the call *)
  Now : nat -> Time;
  (** [chooseProtocol(module.ICMP.PreferredIPProtocol, target, registry, logger)] *)
  chooseProtocol : option IPAddr;
  (** [ip.String()] *)
  IPAddr_String : IPAddr -> string;
  (** [icmp.ListenPacket(network, address)] *)
  ListenPacket : string -> string -> bool;
  (** [os.Getpid()] *)
  Getpid : Z;
  (** [wm.Marshal(nil)] *)
  Marshal : Message -> option bytes;
  (** [socket.WriteTo(wb, ip)] *)
  WriteTo : bytes -> IPAddr -> bool;
  (** [socket.SetReadDeadline(deadline)] *)
  SetReadDeadline : Time -> bool;
  (** what successive [ReadFrom] calls would meet, each with the instant
      at which it is there to be read *)
  incoming : list (Time * Arrival)
}.

(** The state a probe works on: the package variable [icmpSequence], the
    number of sockets the process holds open, and the events so far. *)
Record State := mkState {
  icmpSequence : Z;
  open_sockets : nat;
  trace : list Event
}.

Definition emit (e : Event) (st : State) : State :=
  {| icmpSequence := icmpSequence st;
     open_sockets := open_sockets st;
     trace := trace st ++ [e] |}.

Definition Log (lvl : Level) (msg : string) (st : State) : State :=
  emit (EvLog lvl msg) st.

(** A call of the probe either returns, or never does because a read
    without deadline waits for a packet that does not come. *)
Inductive Outcome :=
| Returns (success : bool) (st : State)
| Blocks (st : State).

Definition final_state (o : Outcome) : State :=
  match o with Returns _ st => st | Blocks st => st end.

Definition result (o : Outcome) : option bool :=
  match o with Returns b _ => Some b | Blocks _ => None end.

(** ** getICMPSequence *)

(** [icmpSequence++] on a [uint16] *)
Definition uint16_incr (x : Z) : Z := (x + 1) mod 65536.

(** The body of [getICMPSequence], run under [icmpSequenceMutex]. *)
Definition getICMPSequence (st : State) : Z * State :=
  let st := {| icmpSequence := uint16_incr (icmpSequence st);
               open_sockets := open_sockets st;
               trace := trace st |} in
  (icmpSequence st, st).

(** ** The socket *)

Definition socket_opened (st : State) : State :=
  {| icmpSequence := icmpSequence st;
     open_sockets := S (open_sockets st);
     trace := trace st |}.

(** [socket.Close()] *)
Definition socket_Close (st : State) : State :=
  emit EvClose {| icmpSequence := icmpSequence st;
                  open_sockets := Nat.pred (open_sockets st);
                  trace := trace st |}.

(** [defer socket.Close()]: runs when the function returns. *)
Definition defer_Close (o : Outcome) : Outcome :=
  match o with
  | Returns b st => Returns b (socket_Close st)
  | Blocks st => Blocks st
  end.

(** The read deadline a socket holds after [SetReadDeadline(t)]: the zero
    time stands for no deadline. *)
Definition read_deadline (t : Time) : option Time :=
  if Time_IsZero t then None else Some t.

Definition deadline_passed (rdl : option Time) (t : Time) : bool :=
  match rdl with
  | Some d => d <=? t
  | None => false
  end.

(** [n, peer, err := socket.ReadFrom(rb)] on a socket with read deadline
    [rdl], when [next] is what the network has for this call. The answer
    is [n], [peer], [err] and the buffer as the call leaves it; [None] is
    a call that never returns. As in package [net], a read fails with a
    timeout when its deadline has passed by the time the arrival is
    there, or when nothing arrives any more; without a deadline it then
    waits for ever. A datagram is copied to the front of the buffer, as
    far as the buffer goes. *)
Definition ReadFrom (rdl : option Time) (next : option (Time * Arrival))
    (rb : bytes) : option (nat * string * option error * bytes) :=
  match next with
  | None =>
      match rdl with
      | None => None
      | Some _ => Some (0%nat, ""%string, Some errTimeout, rb)
      end
  | Some (t, a) =>
      if deadline_passed rdl t then Some (0%nat, ""%string, Some errTimeout, rb)
      else match a with
           | ArrError e => Some (0%nat, ""%string, Some e, rb)
           | ArrPacket data peer =>
               let n := Nat.min (length data) (length rb) in
               Some (n, peer, None, take n data ++ drop n rb)
           end
  end.

(** ** ProbeICMP *)

Definition payload : bytes := list_byte_of_string "Prometheus Blackbox Exporter".

(** The [for] loop of [ProbeICMP]. [q] is what is still to arrive; every
    turn of the loop takes the next arrival. With nothing left to arrive
    [ReadFrom] times out or blocks, so the loop is never continued on an
    empty [q]. *)
Fixpoint recv_loop (w : World) (ip : IPAddr) (replyType : ICMPType)
    (wb : bytes) (rdl : option Time) (q : list (Time * Arrival))
    (rb : bytes) (st : State) {struct q} : Outcome :=
  let continue rb st :=
    match q with
    | [] => Blocks st
    | _ :: q' => recv_loop w ip replyType wb rdl q' rb st
    end in
  let st := emit EvReadFrom st in
  match ReadFrom rdl (head q) rb with
  | None => Blocks st
  | Some (n, peer, Some err, rb) =>
      if is_timeout err
      then Returns false (Log level_Warn "Timeout reading from socket" st)
      else continue rb (Log level_Error "Error reading from socket" st)
  | Some (n, peer, None, rb) =>
      if bool_decide (peer ≠ IPAddr_String w ip) then continue rb st
      else
        let rb :=
          if bool_decide (replyType = ipv6_ICMPTypeEchoReply)
          then <[3%nat:=x00]> (<[2%nat:=x00]> rb)
          else rb in
        if bytes_Compare (take n rb) wb =? 0
        then Returns true (Log level_Info "Found matching reply packet" st)
        else continue rb st
  end.

Definition ProbeICMP (w : World) (st : State) : Outcome :=
  let timeoutDeadline := (Deadline w).1 in
  let deadline := Time_Add (Now w 0) (Time_Sub timeoutDeadline (Now w 1)) in
  let st := emit EvResolve st in
  match chooseProtocol w with
  | None => Returns false (Log level_Warn "Error resolving address" st)
  | Some ip =>
    let st := Log level_Info "Creating socket" st in
    let '(requestType, replyType, network, address) :=
      match IP_To4 (IP ip) with
      | None => (ipv6_ICMPTypeEchoRequest, ipv6_ICMPTypeEchoReply,
                 "ip6:ipv6-icmp"%string, "::"%string)
      | Some _ => (ipv4_ICMPTypeEcho, ipv4_ICMPTypeEchoReply,
                   "ip4:icmp"%string, "0.0.0.0"%string)
      end in
    let st := emit (EvListen network address) st in
    if negb (ListenPacket w network address)
    then Returns false (Log level_Error "Error listening to socket" st)
    else
    let st := socket_opened st in
    defer_Close (
      let '(seq, st) := getICMPSequence st in
      let body := {| ID := Z.land (Getpid w) 0xffff;
                     Seq := seq;
                     Data := payload |} in
      let st := Log level_Info "Creating ICMP packet" st in
      let wm := {| Type_ := requestType; Code := 0; Body := body |} in
      let st := emit (EvMarshal wm) st in
      match Marshal w wm with
      | None => Returns false (Log level_Error "Error marshalling packet" st)
      | Some wb =>
        let st := Log level_Info "Writing out packet" st in
        let st := emit (EvWriteTo wb ip) st in
        if negb (WriteTo w wb ip)
        then Returns false (Log level_Warn "Error writing to socket" st)
        else
        (* Reply should be the same except for the message type. *)
        let wm := set_Type wm replyType in
        let st := emit (EvMarshal wm) st in
        match Marshal w wm with
        | None => Returns false (Log level_Error "Error marshalling packet" st)
        | Some wb =>
          let rb := make_bytes 1500 in
          let st := emit (EvSetReadDeadline deadline) st in
          if negb (SetReadDeadline w deadline)
          then Returns false (Log level_Error "Error setting socket deadline" st)
          else
          let st := Log level_Info "Waiting for reply packets" st in
          recv_loop w ip replyType wb (read_deadline deadline)
                    (incoming w) rb st
        end
      end)
  end.

(** ** The ICMP codec of golang.org/x/net/icmp

    [Marshal] is a field of [World], so that the probe is checked for
    every codec, also a failing one. This module is the codec the
    exporter is linked with, a package outside of this repository:
    [Message.Marshal] with a [nil] pseudo-header and [Echo.Marshal], in
    the wire format of an echo message (type, code, checksum,
    identifier, sequence number, payload). It serves the worlds of
    [Demo]. *)
Module icmp.

Definition ProtocolICMP : Z := 1.
Definition ProtocolIPv6ICMP : Z := 58.

(** [m.Type.Protocol()] *)
Definition Protocol (t : ICMPType) : Z :=
  match t with
  | ipv4_ICMPType _ => ProtocolICMP
  | ipv6_ICMPType _ => ProtocolIPv6ICMP
  end.

(** [Echo.Marshal]: identifier and sequence number as big-endian
    [uint16], then the data. *)
Definition Echo_Marshal (p : Echo) : bytes :=
  [byte_of_Z (Z.shiftr (ID p mod 65536) 8); byte_of_Z (ID p);
   byte_of_Z (Z.shiftr (Seq p mod 65536) 8); byte_of_Z (Seq p)] ++ Data p.

(** The sum of the 16-bit little-endian words of [b], a last odd byte
    counted alone. *)
Fixpoint word_sum (b : bytes) : Z :=
  match b with
  | x :: y :: b' =>
      Z.lor (Z.shiftl (byte_to_Z y) 8) (byte_to_Z x) + word_sum b'
  | [x] => byte_to_Z x
  | [] => 0
  end.

(** [checksum(b)]: the sum in a [uint32], folded to 16 bits and
    complemented. *)
Definition checksum (b : bytes) : Z :=
  let s := word_sum b mod 2 ^ 32 in
  let s := (Z.shiftr s 16 + Z.land s 0xffff) mod 2 ^ 32 in
  let s := (s + Z.shiftr s 16) mod 2 ^ 32 in
  Z.lxor (s mod 65536) 0xffff.

(** [m.Marshal(nil)]. For ICMPv6 the checksum needs the pseudo-header
    and is left to the kernel: bytes 2 and 3 stay zero. *)
Definition Message_Marshal (m : Message) : option bytes :=
  let mtype := match Type_ m with
               | ipv4_ICMPType n => byte_of_Z n
               | ipv6_ICMPType n => byte_of_Z n
               end in
  let b := [mtype; byte_of_Z (Code m); x00; x00] ++ Echo_Marshal (Body m) in
  if Protocol (Type_ m) =? ProtocolIPv6ICMP then Some b
  else
    let s := checksum b in
    Some (<[3%nat:=byte_of_Z (Z.lxor 0 (Z.shiftr s 8))]>
            (<[2%nat:=byte_of_Z (Z.lxor 0 s)]> b)).

End icmp.

(** ** What the listening loop does, arrival by arrival

    The loop restated as the spec describes it (4.5): each arrival is a
    timeout, is skipped, or is the match. [recv_loop_spec] below proves
    that [recv_loop] computes [listen_result] and [listen_events]. *)

(** The received bytes the loop compares: for an ICMPv6 probe, the
    checksum at offsets 2 and 3 is cleared first. *)
Definition clear_checksum (b : bytes) : bytes :=
  <[3%nat:=x00]> (<[2%nat:=x00]> b).

Definition compared (replyType : ICMPType) (b : bytes) : bytes :=
  if bool_decide (replyType = ipv6_ICMPTypeEchoReply) then clear_checksum b
  else b.

Definition extend (es : list Event) (st : State) : State :=
  {| icmpSequence := icmpSequence st;
     open_sockets := open_sockets st;
     trace := trace st ++ es |}.

Inductive Verdict := VTimeout | VSkip | VMatch.

Section Listening.

Variable w : World.
Variable ip : IPAddr.
Variable replyType : ICMPType.
Variable wb : bytes.
Variable rdl : option Time.
(** the length of the read buffer *)
Variable cap : nat.

(** Whether a datagram is the awaited reply. *)
Definition is_reply (data : bytes) (peer : string) : bool :=
  bool_decide (peer = IPAddr_String w ip)
  && bool_decide (compared replyType (take cap data) = wb).

Definition verdict (ta : Time * Arrival) : Verdict :=
  if deadline_passed rdl ta.1 then VTimeout
  else match ta.2 with
       | ArrError e => if is_timeout e then VTimeout else VSkip
       | ArrPacket data peer => if is_reply data peer then VMatch else VSkip
       end.

Definition ev_timeout : list Event :=
  [EvReadFrom; EvLog level_Warn "Timeout reading from socket"].

Definition ev_match : list Event :=
  [EvReadFrom; EvLog level_Info "Found matching reply packet"].

Definition ev_skip (a : Arrival) : list Event :=
  match a with
  | ArrError _ => [EvReadFrom; EvLog level_Error "Error reading from socket"]
  | ArrPacket _ _ => [EvReadFrom]
  end.

(** The answer of the loop on the arrivals [q], if it returns. *)
Fixpoint listen_result (q : list (Time * Arrival)) : option bool :=
  match q with
  | [] => match rdl with Some _ => Some false | None => None end
  | ta :: q' =>
      match verdict ta with
      | VTimeout => Some false
      | VMatch => Some true
      | VSkip => listen_result q'
      end
  end.

(** The events of the loop on the arrivals [q]. *)
Fixpoint listen_events (q : list (Time * Arrival)) : list Event :=
  match q with
  | [] => match rdl with Some _ => ev_timeout | None => [EvReadFrom] end
  | ta :: q' =>
      match verdict ta with
      | VTimeout => ev_timeout
      | VMatch => ev_match
      | VSkip => ev_skip ta.2 ++ listen_events q'
      end
  end.

Definition outcome_of (r : option bool) (st : State) : Outcome :=
  match r with
  | Some b => Returns b st
  | None => Blocks st
  end.

End Listening.

(** The events of arrivals that are all passed over. *)
Definition skipped_events (pre : list (Time * Arrival)) : list Event :=
  pre ≫= (λ ta, ev_skip ta.2).

(** ** The stages of a probe *)

(** The choice [ProbeICMP] makes from [ip.IP.To4()]. *)
Definition requestType_of (ip : IPAddr) : ICMPType :=
  match IP_To4 (IP ip) with
  | None => ipv6_ICMPTypeEchoRequest
  | Some _ => ipv4_ICMPTypeEcho
  end.

Definition replyType_of (ip : IPAddr) : ICMPType :=
  match IP_To4 (IP ip) with
  | None => ipv6_ICMPTypeEchoReply
  | Some _ => ipv4_ICMPTypeEchoReply
  end.

Definition network_of (ip : IPAddr) : string :=
  match IP_To4 (IP ip) with
  | None => "ip6:ipv6-icmp"
  | Some _ => "ip4:icmp"
  end.

Definition address_of (ip : IPAddr) : string :=
  match IP_To4 (IP ip) with
  | None => "::"
  | Some _ => "0.0.0.0"
  end.

(** The instant [ProbeICMP] hands to [SetReadDeadline]. *)
Definition probe_deadline (w : World) : Time :=
  Time_Add (Now w 0) (Time_Sub (Deadline w).1 (Now w 1)).

(** The echo request of a probe started in state [st], and the reply it
    waits for. *)
Definition request_of (w : World) (st : State) (ip : IPAddr) : Message :=
  {| Type_ := requestType_of ip;
     Code := 0;
     Body := {| ID := Z.land (Getpid w) 0xffff;
                Seq := uint16_incr (icmpSequence st);
                Data := payload |} |}.

Definition reply_of (w : World) (st : State) (ip : IPAddr) : Message :=
  set_Type (request_of w st ip) (replyType_of ip).

(** Resolution, socket open, both marshals and the send succeed: [ip] is
    the target, [wb0] the request on the wire, [wb] the expected reply. *)
Record Sends (w : World) (st : State) (ip : IPAddr) (wb0 wb : bytes) : Prop :=
  { sends_resolved : chooseProtocol w = Some ip;
    sends_socket : ListenPacket w (network_of ip) (address_of ip) = true;
    sends_request : Marshal w (request_of w st ip) = Some wb0;
    sends_written : WriteTo w wb0 ip = true;
    sends_reply : Marshal w (reply_of w st ip) = Some wb }.

(** The probe gets to its receive loop: the read deadline is set too. *)
Record Listens (w : World) (st : State) (ip : IPAddr) (wb0 wb : bytes) : Prop :=
  { listens_sends : Sends w st ip wb0 wb;
    listens_deadline : SetReadDeadline w (probe_deadline w) = true }.

(** The events of a probe up to the send, and from there to the loop. *)
Definition send_events (w : World) (st : State) (ip : IPAddr) (wb0 : bytes)
    : list Event :=
  [EvResolve;
   EvLog level_Info "Creating socket";
   EvListen (network_of ip) (address_of ip);
   EvLog level_Info "Creating ICMP packet";
   EvMarshal (request_of w st ip);
   EvLog level_Info "Writing out packet";
   EvWriteTo wb0 ip;
   EvMarshal (reply_of w st ip);
   EvSetReadDeadline (probe_deadline w)].

Definition setup_events (w : World) (st : State) (ip : IPAddr) (wb0 : bytes)
    : list Event :=
  send_events w st ip wb0 ++ [EvLog level_Info "Waiting for reply packets"].

(** The state of a probe with its socket open and its sequence number
    drawn, before any event. *)
Definition in_flight (st : State) : State :=
  {| icmpSequence := uint16_incr (icmpSequence st);
     open_sockets := S (open_sockets st);
     trace := trace st |}.

(** The same world with other arrivals. *)
Definition with_incoming (w : World) (q : list (Time * Arrival)) : World :=
  {| Deadline := Deadline w; Now := Now w; chooseProtocol := chooseProtocol w;
     IPAddr_String := IPAddr_String w; ListenPacket := ListenPacket w;
     Getpid := Getpid w; Marshal := Marshal w; WriteTo := WriteTo w;
     SetReadDeadline := SetReadDeadline w; incoming := q |}.

(** The read deadline of the socket while the probe listens. *)
Definition listening_deadline (w : World) : option Time :=
  read_deadline (probe_deadline w).

(** An arrival that the loop passes over, in a probe for [ip] that waits
    for [wb] with the deadline it has set. *)
Definition passed_over (w : World) (ip : IPAddr) (wb : bytes)
    (ta : Time * Arrival) : Prop :=
  verdict w ip (replyType_of ip) wb (listening_deadline w) 1500 ta = VSkip.

(** An arrival that is there before the read deadline. *)
Definition in_time (w : World) (t : Time) : Prop :=
  deadline_passed (listening_deadline w) t = false.

(** An arrival on which the loop does not time out: it is there before
    the deadline and is no timeout error. *)
Definition survives (w : World) (ta : Time * Arrival) : Prop :=
  in_time w ta.1 ∧ ∀ e, ta.2 = ArrError e → is_timeout e = false.

(** The error of a read on a socket with read deadline [rdl], if the
    read fails; it does not depend on the buffer. *)
Definition read_error (rdl : option Time) (next : option (Time * Arrival))
    : option error :=
  match ReadFrom rdl next [] with
  | Some (_, _, err, _) => err
  | None => None
  end.

(** Counting calls in a trace. *)
Definition is_read (e : Event) : bool :=
  match e with EvReadFrom => true | _ => false end.

Definition is_write (e : Event) : bool :=
  match e with EvWriteTo _ _ => true | _ => false end.

Definition reads_issued (st : State) : nat :=
  length (filter (λ e, is_read e = true) (trace st)).

Definition packets_sent (st : State) : nat :=
  length (filter (λ e, is_write e = true) (trace st)).

(** The instants handed to [SetReadDeadline]. *)
Definition deadline_of (e : Event) : option Time :=
  match e with EvSetReadDeadline t => Some t | _ => None end.

Definition deadlines_set (st : State) : list Time :=
  omap deadline_of (trace st).

(** ** The ways through ProbeICMP

    One case for each [return] of the function, by the call that decides
    it, with the outcome of that case: the events up to the [return] and,
    once the socket is open, its deferred close. *)
Inductive ProbeCase (w : World) (st : State) : Outcome -> Prop :=
| case_resolution :
    chooseProtocol w = None ->
    ProbeCase w st
      (Returns false
         (extend [EvResolve; EvLog level_Warn "Error resolving address"] st))
| case_socket ip :
    chooseProtocol w = Some ip ->
    ListenPacket w (network_of ip) (address_of ip) = false ->
    ProbeCase w st
      (Returns false
         (extend [EvResolve;
                  EvLog level_Info "Creating socket";
                  EvListen (network_of ip) (address_of ip);
                  EvLog level_Error "Error listening to socket"] st))
| case_request ip :
    chooseProtocol w = Some ip ->
    ListenPacket w (network_of ip) (address_of ip) = true ->
    Marshal w (request_of w st ip) = None ->
    ProbeCase w st
      (Returns false
         (socket_Close
            (extend [EvResolve;
                     EvLog level_Info "Creating socket";
                     EvListen (network_of ip) (address_of ip);
                     EvLog level_Info "Creating ICMP packet";
                     EvMarshal (request_of w st ip);
                     EvLog level_Error "Error marshalling packet"]
                    (in_flight st))))
| case_write ip wb0 :
    chooseProtocol w = Some ip ->
    ListenPacket w (network_of ip) (address_of ip) = true ->
    Marshal w (request_of w st ip) = Some wb0 ->
    WriteTo w wb0 ip = false ->
    ProbeCase w st
      (Returns false
         (socket_Close
            (extend [EvResolve;
                     EvLog level_Info "Creating socket";
                     EvListen (network_of ip) (address_of ip);
                     EvLog level_Info "Creating ICMP packet";
                     EvMarshal (request_of w st ip);
                     EvLog level_Info "Writing out packet";
                     EvWriteTo wb0 ip;
                     EvLog level_Warn "Error writing to socket"]
                    (in_flight st))))
| case_reply ip wb0 :
    chooseProtocol w = Some ip ->
    ListenPacket w (network_of ip) (address_of ip) = true ->
    Marshal w (request_of w st ip) = Some wb0 ->
    WriteTo w wb0 ip = true ->
    Marshal w (reply_of w st ip) = None ->
    ProbeCase w st
      (Returns false
         (socket_Close
            (extend [EvResolve;
                     EvLog level_Info "Creating socket";
                     EvListen (network_of ip) (address_of ip);
                     EvLog level_Info "Creating ICMP packet";
                     EvMarshal (request_of w st ip);
                     EvLog level_Info "Writing out packet";
                     EvWriteTo wb0 ip;
                     EvMarshal (reply_of w st ip);
                     EvLog level_Error "Error marshalling packet"]
                    (in_flight st))))
| case_deadline ip wb0 wb :
    Sends w st ip wb0 wb ->
    SetReadDeadline w (probe_deadline w) = false ->
    ProbeCase w st
      (Returns false
         (socket_Close
            (extend (send_events w st ip wb0
                     ++ [EvLog level_Error "Error setting socket deadline"])
                    (in_flight st))))
| case_listening ip wb0 wb :
    Listens w st ip wb0 wb ->
    ProbeCase w st
      (defer_Close
         (outcome_of
            (listen_result w ip (replyType_of ip) wb (listening_deadline w)
               1500 (incoming w))
            (extend (setup_events w st ip wb0
                     ++ listen_events w ip (replyType_of ip) wb
                          (listening_deadline w) 1500 (incoming w))
                    (in_flight st)))).

(** The events a probe adds to the trace of the state it starts in. *)
Definition new_events (st : State) (o : Outcome) : list Event :=
  drop (length (trace st)) (trace (final_state o)).

Definition is_log (e : Event) : bool :=
  match e with EvLog _ _ => true | _ => false end.

(** ** Calls of getICMPSequence, one after the other and interleaved *)

Fixpoint sequential_calls (n : nat) (st : State) : list Z * State :=
  match n with
  | O => ([], st)
  | S n' =>
      let '(v, st) := getICMPSequence st in
      let '(vs, st) := sequential_calls n' st in
      (v :: vs, st)
  end.

(** Goroutines that call [getICMPSequence] again and again, interleaved
    statement by statement. The increment is a load and a store; the
    result is read before the deferred [Unlock] runs. *)
Module Concurrent.

Inductive Pc :=
| Idle                 (* not in a call, or waiting at Lock() *)
| AtIncr               (* holds the mutex, before icmpSequence++ *)
| AtStore (tmp : Z)    (* has loaded icmpSequence *)
| AtReturn             (* has stored, before return icmpSequence *)
| AtUnlock (v : Z).    (* result fixed, deferred Unlock() to run *)

Record Shared := mkShared {
  counter : Z;           (* icmpSequence *)
  locked : bool;         (* icmpSequenceMutex *)
  pcs : nat -> Pc        (* where each goroutine is *)
}.

Definition init (s0 : Z) : Shared :=
  {| counter := s0; locked := false; pcs := λ _, Idle |}.

Definition move (σ : Shared) (t : nat) (pc : Pc) (c : Z) (l : bool) : Shared :=
  {| counter := c; locked := l; pcs := <[t:=pc]> (pcs σ) |}.

(** One statement of goroutine [t]; the label is the value a call
    returns with that statement, if one does. *)
Inductive step : Shared -> option Z -> Shared -> Prop :=
| step_Lock σ t :
    pcs σ t = Idle -> locked σ = false ->
    step σ None (move σ t AtIncr (counter σ) true)
| step_load σ t :
    pcs σ t = AtIncr ->
    step σ None (move σ t (AtStore (counter σ)) (counter σ) (locked σ))
| step_store σ t tmp :
    pcs σ t = AtStore tmp ->
    step σ None (move σ t AtReturn (uint16_incr tmp) (locked σ))
| step_result σ t :
    pcs σ t = AtReturn ->
    step σ None (move σ t (AtUnlock (counter σ)) (counter σ) (locked σ))
| step_Unlock σ t v :
    pcs σ t = AtUnlock v ->
    step σ (Some v) (move σ t Idle (counter σ) false).

(** Runs, with the values returned so far in the order they were
    issued. *)
Inductive run : Shared -> list Z -> Shared -> Prop :=
| run_nil σ : run σ [] σ
| run_step σ vs σ' l σ'' :
    run σ vs σ' -> step σ' l σ'' ->
    run σ (vs ++ match l with Some v => [v] | None => [] end) σ''.

Definition quiescent (σ : Shared) : Prop := ∀ t, pcs σ t = Idle.

(** The same statements as a function: the next statement of
    goroutine [t], if it can run ([Lock] waits while the mutex is
    held). *)
Definition exec_step (σ : Shared) (t : nat) : option (option Z * Shared) :=
  match pcs σ t with
  | Idle =>
      if locked σ then None
      else Some (None, move σ t AtIncr (counter σ) true)
  | AtIncr =>
      Some (None, move σ t (AtStore (counter σ)) (counter σ) (locked σ))
  | AtStore tmp =>
      Some (None, move σ t AtReturn (uint16_incr tmp) (locked σ))
  | AtReturn =>
      Some (None, move σ t (AtUnlock (counter σ)) (counter σ) (locked σ))
  | AtUnlock v =>
      Some (Some v, move σ t Idle (counter σ) false)
  end.

(** Running a schedule: the goroutines named in turn each run one
    statement, or nothing when they wait. *)
Fixpoint exec (sched : list nat) (σ : Shared) : list Z * Shared :=
  match sched with
  | [] => ([], σ)
  | t :: sched' =>
      match exec_step σ t with
      | None => exec sched' σ
      | Some (l, σ') =>
          let '(vs, σ'') := exec sched' σ' in
          (match l with Some v => [v] | None => [] end ++ vs, σ'')
      end
  end.

(** The [k]-th value after [s0], counting from 0. *)
Definition ticket (s0 : Z) (k : nat) : Z := (s0 + Z.of_nat k + 1) mod 65536.

(** What holds of every state reached from [init s0] when the values
    [vs] have been returned: the counter has been incremented once for
    each of them, and once more if the goroutine that holds the mutex
    has stored already; no other goroutine is inside a call. *)
Definition holder_ok (σ : Shared) (c : Z) (t : nat) : Prop :=
  (∀ t', t' ≠ t → pcs σ t' = Idle)
  ∧ match pcs σ t with
    | Idle => False
    | AtIncr => counter σ = c
    | AtStore tmp => counter σ = c ∧ tmp = c
    | AtReturn => counter σ = uint16_incr c
    | AtUnlock v => counter σ = uint16_incr c ∧ v = uint16_incr c
    end.

Definition invariant (s0 : Z) (vs : list Z) (σ : Shared) : Prop :=
  vs = ticket s0 <$> seq 0 (length vs)
  ∧ let c := (s0 + Z.of_nat (length vs)) mod 65536 in
    if locked σ then ∃ t, holder_ok σ c t
    else quiescent σ ∧ counter σ = c.

End Concurrent.

(** ** Worlds to run the probe in *)

Module Demo.

Definition target4 : IPAddr := {| IP := [xc0; x00; x02; x01]; Zone := "" |}.

Definition target6 : IPAddr :=
  {| IP := [x20; x01; x0d; xb8; x00; x00; x00; x00;
            x00; x00; x00; x00; x00; x00; x00; x01];
     Zone := "" |}.

Definition addr_String (ip : IPAddr) : string :=
  if bool_decide (ip = target4) then "192.0.2.1"
  else if bool_decide (ip = target6) then "2001:db8::1"
  else "?".

(** a clock reading of the year 2026, in nanoseconds *)
Definition T0 : Time := 63900000000 * 10 ^ 9.

Definition second : Duration := 10 ^ 9.

(** A world where every call succeeds: the probe is entered at [T0]
    with the context deadline [dl], and the codec is the real one. *)
Definition world (ip : IPAddr) (dl : Time * bool)
    (q : list (Time * Arrival)) : World :=
  {| Deadline := dl;
     Now := λ k, T0 + Z.of_nat k;
     chooseProtocol := Some ip;
     IPAddr_String := addr_String;
     ListenPacket := λ _ _, true;
     Getpid := 70123;
     Marshal := icmp.Message_Marshal;
     WriteTo := λ _ _, true;
     SetReadDeadline := λ _, true;
     incoming := q |}.

Definition st0 : State :=
  {| icmpSequence := 6; open_sockets := 0; trace := [] |}.

Definition in_2s : Time * bool := (T0 + 2 * second, true).

(** the request and the awaited reply of a probe from [st0] *)
Definition request (ip : IPAddr) : bytes :=
  default [] (icmp.Message_Marshal (request_of (world ip in_2s []) st0 ip)).

Definition reply (ip : IPAddr) : bytes :=
  default [] (icmp.Message_Marshal (reply_of (world ip in_2s []) st0 ip)).

Definition other_error : error := {| is_net_Error := true; Timeout := false |}.

(** worlds in which one call fails *)
Definition no_resolution : World :=
  {| Deadline := in_2s; Now := λ k, T0 + Z.of_nat k;
     chooseProtocol := None; IPAddr_String := addr_String;
     ListenPacket := λ _ _, true; Getpid := 70123;
     Marshal := icmp.Message_Marshal; WriteTo := λ _ _, true;
     SetReadDeadline := λ _, true; incoming := [] |}.

Definition no_socket : World :=
  {| Deadline := in_2s; Now := λ k, T0 + Z.of_nat k;
     chooseProtocol := Some target4; IPAddr_String := addr_String;
     ListenPacket := λ _ _, false; Getpid := 70123;
     Marshal := icmp.Message_Marshal; WriteTo := λ _ _, true;
     SetReadDeadline := λ _, true; incoming := [] |}.

Definition no_marshal (fail_on : ICMPType) (q : list (Time * Arrival))
    : World :=
  {| Deadline := in_2s; Now := λ k, T0 + Z.of_nat k;
     chooseProtocol := Some target4; IPAddr_String := addr_String;
     ListenPacket := λ _ _, true; Getpid := 70123;
     Marshal := λ m, if bool_decide (Type_ m = fail_on) then None
                     else icmp.Message_Marshal m;
     WriteTo := λ _ _, true;
     SetReadDeadline := λ _, true; incoming := q |}.

Definition no_write (q : list (Time * Arrival)) : World :=
  {| Deadline := in_2s; Now := λ k, T0 + Z.of_nat k;
     chooseProtocol := Some target4; IPAddr_String := addr_String;
     ListenPacket := λ _ _, true; Getpid := 70123;
     Marshal := icmp.Message_Marshal; WriteTo := λ _ _, false;
     SetReadDeadline := λ _, true; incoming := q |}.

End Demo.

(** * Properties *)

(** ** Bytes *)

Lemma byte_to_Z_inj (x y : byte) : byte_to_Z x = byte_to_Z y → x = y.
Proof.
  unfold byte_to_Z. intros H. apply N2Z.inj in H.
  assert (Some x = Some y) as E; [|by inversion E].
  by rewrite <- (Byte.of_to_N x), <- (Byte.of_to_N y), H.
Qed.

Lemma bytes_Compare_refl (a : bytes) : bytes_Compare a a = 0.
Proof. induction a as [|x a IH]; simpl; [done|]. by rewrite Z.ltb_irrefl. Qed.

Lemma bytes_Compare_0 (a b : bytes) : bytes_Compare a b = 0 ↔ a = b.
Proof.
  split; [|intros ->; apply bytes_Compare_refl].
  revert b. induction a as [|x a IH]; intros [|y b]; simpl; try done.
  destruct (Z.ltb_spec (byte_to_Z x) (byte_to_Z y)); [done|].
  destruct (Z.ltb_spec (byte_to_Z y) (byte_to_Z x)); [done|].
  intros Hrest. f_equal; [apply byte_to_Z_inj; lia | by apply IH].
Qed.

Lemma bytes_Compare_eqb (a b : bytes) :
  (bytes_Compare a b =? 0) = bool_decide (a = b).
Proof.
  case_bool_decide as H.
  - apply Z.eqb_eq. by apply bytes_Compare_0.
  - apply Z.eqb_neq. by rewrite bytes_Compare_0.
Qed.

Lemma take_insert_comm {A} (l : list A) (n i : nat) (x : A) :
  take n (<[i:=x]> l) = <[i:=x]> (take n l).
Proof.
  destruct (decide (i < n)%nat).
  - by apply take_insert_lt.
  - rewrite take_insert_ge by lia.
    symmetry. apply list_insert_ge. rewrite length_take. lia.
Qed.

(** What [rb[:n]] holds after a read of [data] into [rb]. *)
Lemma read_window (data rb : bytes) :
  let n := Nat.min (length data) (length rb) in
  take n (take n data ++ drop n rb) = take (length rb) data.
Proof.
  intros n. rewrite take_app_length' by (rewrite length_take; lia).
  destruct (decide (length data ≤ length rb)%nat).
  - rewrite !take_ge; [done|lia|lia].
  - f_equal. lia.
Qed.

Lemma read_length (data rb : bytes) :
  let n := Nat.min (length data) (length rb) in
  length (take n data ++ drop n rb) = length rb.
Proof. intros n. rewrite length_app, length_take, length_drop. lia. Qed.

(** ** States and traces *)

Lemma emit_extend (e : Event) (st : State) : emit e st = extend [e] st.
Proof. done. Qed.

Lemma extend_extend (es1 es2 : list Event) (st : State) :
  extend es2 (extend es1 st) = extend (es1 ++ es2) st.
Proof. unfold extend; simpl. by rewrite app_assoc. Qed.




(** Bring a state built by [emit] and [Log] to the form [extend es st]. *)
Ltac norm_state :=
  unfold Log; rewrite ?emit_extend, ?extend_extend; cbn [app].

(** ** The receive loop *)

Section ListeningFacts.

Variable w : World.
Variable ip : IPAddr.
Variable replyType : ICMPType.
Variable wb : bytes.
Variable rdl : option Time.

Local Abbreviation loop := (recv_loop w ip replyType wb rdl).

(** One turn of the loop on an arrival, by its verdict. *)
Lemma recv_loop_timeout ta q rb st :
  verdict w ip replyType wb rdl (length rb) ta = VTimeout →
  loop (ta :: q) rb st = Returns false (extend ev_timeout st).
Proof.
  destruct ta as [t a]. unfold verdict; simpl.
  destruct (deadline_passed rdl t) eqn:Hd.
  { intros _. cbn. by norm_state. }
  destruct a as [e|data peer]; simpl.
  - destruct (is_timeout e) eqn:He; [|done]. intros _. by norm_state.
  - destruct (is_reply _ _ _ _ _ _ _); done.
Qed.

Lemma compared_window data rb :
  compared replyType (take (length rb) data)
  = take (Nat.min (length data) (length rb))
      (if bool_decide (replyType = ipv6_ICMPTypeEchoReply)
       then <[3%nat:=x00]>
              (<[2%nat:=x00]>
                 (take (Nat.min (length data) (length rb)) data
                  ++ drop (Nat.min (length data) (length rb)) rb))
       else take (Nat.min (length data) (length rb)) data
            ++ drop (Nat.min (length data) (length rb)) rb).
Proof.
  unfold compared, clear_checksum.
  case_bool_decide; by rewrite ?take_insert_comm, read_window.
Qed.

Lemma recv_loop_match ta q rb st :
  verdict w ip replyType wb rdl (length rb) ta = VMatch →
  loop (ta :: q) rb st = Returns true (extend ev_match st).
Proof.
  destruct ta as [t a]. unfold verdict; simpl.
  destruct (deadline_passed rdl t) eqn:Hd; [done|].
  destruct a as [e|data peer]; simpl.
  - destruct (is_timeout e); done.
  - unfold is_reply.
    case_bool_decide as Hp; simpl; [|done].
    rewrite (bool_decide_false (peer ≠ _)) by tauto.
    rewrite bytes_Compare_eqb, <- compared_window.
    case_bool_decide as Hb; [|done]. intros _. by norm_state.
Qed.

Lemma recv_loop_skip ta q rb st :
  verdict w ip replyType wb rdl (length rb) ta = VSkip →
  ∃ rb', length rb' = length rb
         ∧ loop (ta :: q) rb st = loop q rb' (extend (ev_skip ta.2) st).
Proof.
  destruct ta as [t a]. unfold verdict; simpl.
  destruct (deadline_passed rdl t) eqn:Hd; [done|].
  destruct a as [e|data peer]; simpl.
  - destruct (is_timeout e) eqn:He; [done|]. intros _.
    exists rb. split; [done|]. by norm_state.
  - unfold is_reply.
    case_bool_decide as Hp; simpl.
    + rewrite (bool_decide_false (peer ≠ _)) by tauto.
      rewrite bytes_Compare_eqb, <- compared_window.
      case_bool_decide as Hb; [done|]. intros _.
      eexists; split; [|by norm_state].
      case_bool_decide; by rewrite ?length_insert, read_length.
    + intros _. rewrite bool_decide_true by done.
      eexists; split; [|by norm_state]. by rewrite read_length.
Qed.

(** The loop as a whole: its answer and its events are those read off
    the arrivals. *)
Lemma recv_loop_spec q rb st :
  loop q rb st
  = outcome_of (listen_result w ip replyType wb rdl (length rb) q)
               (extend (listen_events w ip replyType wb rdl (length rb) q) st).
Proof.
  revert rb st. induction q as [|ta q IH]; intros rb st.
  - simpl. destruct rdl; by norm_state.
  - cbn [listen_result listen_events].
    destruct (verdict w ip replyType wb rdl (length rb) ta) eqn:Hv.
    + by rewrite recv_loop_timeout.
    + destruct (recv_loop_skip ta q rb st Hv) as (rb' & Hlen & ->).
      by rewrite IH, extend_extend, Hlen.
    + by rewrite recv_loop_match.
Qed.

End ListeningFacts.

(** ** The probe up to its receive loop *)

Lemma make_bytes_length (n : nat) : length (make_bytes n) = n.
Proof. apply length_replicate. Qed.

Lemma state_eq (st1 st2 : State) :
  icmpSequence st1 = icmpSequence st2 →
  open_sockets st1 = open_sockets st2 →
  trace st1 = trace st2 →
  st1 = st2.
Proof. destruct st1, st2; simpl; by intros -> -> ->. Qed.

(** A probe that gets to send: what is left is the read deadline and the
    loop. *)
Lemma ProbeICMP_sends w st ip wb0 wb :
  Sends w st ip wb0 wb →
  ProbeICMP w st
  = defer_Close
      (let st1 := extend (send_events w st ip wb0) (in_flight st) in
       if negb (SetReadDeadline w (probe_deadline w))
       then Returns false (Log level_Error "Error setting socket deadline" st1)
       else recv_loop w ip (replyType_of ip) wb
              (read_deadline (probe_deadline w)) (incoming w)
              (make_bytes 1500)
              (Log level_Info "Waiting for reply packets" st1)).
Proof.
  intros [Hres Hsock Hreq Hwr Hrep].
  unfold ProbeICMP. rewrite Hres.
  unfold reply_of, request_of, send_events, reply_of, request_of in *.
  unfold requestType_of, replyType_of, network_of, address_of in *.
  fold (probe_deadline w).
  destruct (IP_To4 (IP ip)) eqn:E4; cbn zeta beta iota;
    rewrite Hsock;
    cbn [negb getICMPSequence icmpSequence socket_opened emit Log];
    rewrite Hreq, Hwr; cbn [negb set_Type Type_ Code Body] in *; rewrite Hrep;
    f_equal; cbn zeta; destruct (negb _); f_equal;
    apply state_eq; simpl; by rewrite <- ?app_assoc.
Qed.

Lemma ProbeICMP_listens w st ip wb0 wb :
  Listens w st ip wb0 wb →
  let rdl := listening_deadline w in
  ProbeICMP w st
  = defer_Close
      (outcome_of
         (listen_result w ip (replyType_of ip) wb rdl 1500 (incoming w))
         (extend (setup_events w st ip wb0
                  ++ listen_events w ip (replyType_of ip) wb rdl 1500
                       (incoming w))
                 (in_flight st))).
Proof.
  intros [Hs Hd] rdl. rewrite (ProbeICMP_sends _ _ _ _ _ Hs).
  cbn zeta. rewrite Hd. cbn [negb]. fold (listening_deadline w).
  rewrite recv_loop_spec, make_bytes_length. by norm_state.
Qed.

(** ** The answer of the loop, read off the arrivals *)

Section Verdicts.

Variable w : World.
Variable ip : IPAddr.
Variable replyType : ICMPType.
Variable wb : bytes.
Variable rdl : option Time.
Variable cap : nat.

Local Abbreviation verdict' := (verdict w ip replyType wb rdl cap).
Local Abbreviation answer := (listen_result w ip replyType wb rdl cap).
Local Abbreviation events := (listen_events w ip replyType wb rdl cap).

Lemma verdict_match t data peer :
  deadline_passed rdl t = false →
  peer = IPAddr_String w ip →
  compared replyType (take cap data) = wb →
  verdict' (t, ArrPacket data peer) = VMatch.
Proof.
  intros Hd Hp Hb. unfold verdict, is_reply; simpl.
  by rewrite Hd, !bool_decide_true.
Qed.

Lemma verdict_match_inv ta :
  verdict' ta = VMatch →
  ∃ data, ta.2 = ArrPacket data (IPAddr_String w ip)
          ∧ deadline_passed rdl ta.1 = false
          ∧ compared replyType (take cap data) = wb.
Proof.
  destruct ta as [t a]. unfold verdict, is_reply; simpl.
  destruct (deadline_passed rdl t); [done|].
  destruct a as [e|data peer]; [by destruct (is_timeout e)|].
  do 2 case_bool_decide; try done. subst peer. by exists data.
Qed.

Lemma verdict_other_peer t data peer :
  deadline_passed rdl t = false →
  peer ≠ IPAddr_String w ip →
  verdict' (t, ArrPacket data peer) = VSkip.
Proof.
  intros Hd Hp. unfold verdict, is_reply; simpl.
  by rewrite Hd, bool_decide_false.
Qed.

Lemma verdict_other_bytes t data peer :
  deadline_passed rdl t = false →
  compared replyType (take cap data) ≠ wb →
  verdict' (t, ArrPacket data peer) = VSkip.
Proof.
  intros Hd Hb. unfold verdict, is_reply; simpl.
  rewrite Hd, (bool_decide_false (_ = wb)) by done.
  by rewrite andb_false_r.
Qed.

Lemma verdict_other_error t e :
  deadline_passed rdl t = false →
  is_timeout e = false →
  verdict' (t, ArrError e) = VSkip.
Proof. intros Hd He. unfold verdict; simpl. by rewrite Hd, He. Qed.


Lemma verdict_deadline t a :
  deadline_passed rdl t = true → verdict' (t, a) = VTimeout.
Proof. intros Hd. unfold verdict; simpl. by rewrite Hd. Qed.

(** Arrivals that are passed over change nothing but the trace. *)
Lemma listen_skip_prefix pre q :
  Forall (λ ta, verdict' ta = VSkip) pre →
  answer (pre ++ q) = answer q
  ∧ events (pre ++ q) = skipped_events pre ++ events q.
Proof.
  induction 1 as [|ta pre Hta _ [IHa IHe]]; [done|].
  simpl. rewrite Hta, IHa, IHe. by rewrite <- app_assoc.
Qed.

(** An arrival that is passed over can be left out. *)
Lemma listen_pass_over pre ta post :
  verdict' ta = VSkip → answer (pre ++ ta :: post) = answer (pre ++ post).
Proof.
  intros Hta. induction pre as [|x pre IH]; simpl.
  - by rewrite Hta.
  - by rewrite IH.
Qed.

(** The first arrival that matches decides, if no read times out
    before it. *)
Lemma listen_match pre ta post :
  Forall (λ x, verdict' x ≠ VTimeout) pre →
  verdict' ta = VMatch →
  answer (pre ++ ta :: post) = Some true.
Proof.
  intros Hpre Hta. induction Hpre as [|x pre Hx _ IH]; simpl.
  - by rewrite Hta.
  - by destruct (verdict' x).
Qed.

(** The loop answers [true] only on a matching arrival, the last one it
    reads. *)
Lemma listen_true_inv q :
  answer q = Some true →
  ∃ pre ta post,
    q = pre ++ ta :: post
    ∧ Forall (λ x, verdict' x = VSkip) pre
    ∧ verdict' ta = VMatch
    ∧ events q = skipped_events pre ++ ev_match.
Proof.
  induction q as [|x q IH]; simpl.
  - by destruct rdl.
  - destruct (verdict' x) eqn:Hx; [done| |].
    + intros (pre & ta & post & -> & Hpre & Hta & Hev)%IH.
      exists (x :: pre), ta, post. split_and!; [done|by constructor|done|].
      rewrite Hev. simpl. by rewrite <- app_assoc.
    + intros _. exists [], x, q. by split_and!.
Qed.

Lemma skipped_events_reads pre :
  length (filter (λ e, is_read e = true) (skipped_events pre)) = length pre.
Proof.
  induction pre as [|[t a] pre IH]; [done|].
  unfold skipped_events in *. cbn [mbind list_bind]. 
  rewrite list.filter_app, length_app, IH.
  by destruct a.
Qed.

End Verdicts.

(** ** From the loop to the probe *)

Lemma result_defer_Close r st :
  result (defer_Close (outcome_of r st)) = r.
Proof. by destruct r. Qed.

Lemma trace_defer_Close r st :
  trace (final_state (defer_Close (outcome_of r st)))
  = trace st ++ match r with Some _ => [EvClose] | None => [] end.
Proof. destruct r; simpl; [done|by rewrite app_nil_r]. Qed.

Lemma Listens_with_incoming w q st ip wb0 wb :
  Listens w st ip wb0 wb → Listens (with_incoming w q) st ip wb0 wb.
Proof. intros [[] ?]. by repeat split. Qed.

(** The answer of a probe that listens is the answer of its loop. *)
Lemma ProbeICMP_result w st ip wb0 wb :
  Listens w st ip wb0 wb →
  result (ProbeICMP w st)
  = listen_result w ip (replyType_of ip) wb (listening_deadline w) 1500
      (incoming w).
Proof.
  intros HL. rewrite (ProbeICMP_listens _ _ _ _ _ HL).
  apply result_defer_Close.
Qed.

Lemma listen_with_incoming w q ip rt wb rdl cap q' :
  listen_result (with_incoming w q) ip rt wb rdl cap q'
  = listen_result w ip rt wb rdl cap q'.
Proof. done. Qed.

Lemma survives_no_timeout w ip wb ta :
  survives w ta →
  verdict w ip (replyType_of ip) wb (listening_deadline w) 1500 ta ≠ VTimeout.
Proof.
  destruct ta as [t a]. intros [Hd He]. unfold in_time in Hd. simpl in *.
  unfold verdict. simpl. rewrite Hd.
  destruct a as [e|data peer].
  - by rewrite (He e eq_refl).
  - by destruct (is_reply _ _ _ _ _ _ _).
Qed.

Lemma passed_over_survives w ip wb ta : passed_over w ip wb ta → survives w ta.
Proof.
  destruct ta as [t a]. unfold passed_over, survives, in_time, verdict.
  simpl. destruct (deadline_passed _ t); [done|]. split; [done|].
  intros e ->. by destruct (is_timeout e).
Qed.

(** An arrival [ta] left out of the arrivals of [w] when the loop passes
    it over: the probe answers the same. *)
Lemma ProbeICMP_pass_over w st ip wb0 wb pre ta post :
  Listens w st ip wb0 wb →
  incoming w = pre ++ ta :: post →
  passed_over w ip wb ta →
  result (ProbeICMP w st)
  = result (ProbeICMP (with_incoming w (pre ++ post)) st).
Proof.
  intros HL Hq Hta.
  pose proof (Listens_with_incoming w (pre ++ post) st ip wb0 wb HL) as HL'.
  rewrite (ProbeICMP_result w st ip wb0 wb HL).
  rewrite (ProbeICMP_result _ st ip wb0 wb HL').
  rewrite Hq, listen_with_incoming.
  change (listening_deadline (with_incoming w (pre ++ post)))
    with (listening_deadline w).
  by apply listen_pass_over.
Qed.

(** The trace of a probe that passes over the arrivals [pre]. *)
Lemma ProbeICMP_trace_skip w st ip wb0 wb pre q :
  Listens w st ip wb0 wb →
  incoming w = pre ++ q →
  Forall (passed_over w ip wb) pre →
  let r := listen_result w ip (replyType_of ip) wb (listening_deadline w)
             1500 q in
  result (ProbeICMP w st) = r
  ∧ trace (final_state (ProbeICMP w st))
    = trace st ++ setup_events w st ip wb0 ++ skipped_events pre
      ++ listen_events w ip (replyType_of ip) wb (listening_deadline w) 1500 q
      ++ match r with Some _ => [EvClose] | None => [] end.
Proof.
  intros HL Hq Hpre r.
  destruct (listen_skip_prefix w ip (replyType_of ip) wb
              (listening_deadline w) 1500 pre q Hpre) as [Ha He].
  rewrite (ProbeICMP_listens _ _ _ _ _ HL). cbn zeta.
  rewrite result_defer_Close, trace_defer_Close, Hq, Ha, He.
  split; [done|]. unfold extend, in_flight; cbn [trace].
  by rewrite <- !app_assoc.
Qed.

Lemma listen_events_head w ip rt wb rdl cap q :
  ∃ rest, listen_events w ip rt wb rdl cap q = EvReadFrom :: rest.
Proof.
  destruct q as [|[t a] q]; simpl.
  - destruct rdl; by eexists.
  - destruct (verdict _ _ _ _ _ _ _); [by eexists| |by eexists].
    destruct a; by eexists.
Qed.

(** Discharging the hypotheses of a statement at a world of [Demo]. *)
Ltac by_running :=
  vm_compute;
  first [ reflexivity
        | discriminate
        | (let H := fresh in intros H; discriminate H) ].

Ltac demo_listens := split; [split|]; by_running.

Ltac demo_survives :=
  repeat first
    [ apply Forall_nil_2
    | apply Forall_cons_2
    | split
    | by_running
    | (let e := fresh in let H := fresh in
       intros e H; inversion H; subst; by_running)
    | (let e := fresh in let H := fresh in intros e H; discriminate H) ].

(** ** A matching reply ends the probe with success *)

(** C1. A probe whose resolution, socket open, both marshals and send
    succeed, and which gets to listen, answers [true] when it receives a
    packet that comes from the resolved target and whose bytes as read
    (for IPv6 with bytes 2 and 3 cleared) are the serialization [wb] of
    the sent message with the type switched to the echo reply. The
    packet is received when no earlier read has timed out and it is
    there before the read deadline. *)
Theorem C1_matching_reply_returns_true
    (w : World) (st : State) (ip : IPAddr) (wb0 wb : bytes)
    (pre : list (Time * Arrival)) (t : Time) (data : bytes) (peer : string)
    (post : list (Time * Arrival)) :
  Listens w st ip wb0 wb →
  incoming w = pre ++ (t, ArrPacket data peer) :: post →
  Forall (survives w) pre →
  in_time w t →
  peer = IPAddr_String w ip →
  compared (replyType_of ip) (take 1500 data) = wb →
  result (ProbeICMP w st) = Some true.
Proof.
  intros HL Hq Hpre Ht Hp Hb.
  rewrite (ProbeICMP_result w st ip wb0 wb HL), Hq.
  apply listen_match.
  - eapply list.Forall_impl; [exact Hpre|]. intros ta. apply survives_no_timeout.
  - by apply verdict_match.
Qed.

Lemma C1_witness :
  result
    (ProbeICMP
       (Demo.world Demo.target4 Demo.in_2s
          [(Demo.T0 + Demo.second, ArrError Demo.other_error);
           (Demo.T0 + Demo.second,
            ArrPacket (Demo.reply Demo.target4) "192.0.2.1")])
       Demo.st0)
  = Some true.
Proof.
  apply (C1_matching_reply_returns_true _ Demo.st0 Demo.target4
           (Demo.request Demo.target4) (Demo.reply Demo.target4)
           [(Demo.T0 + Demo.second, ArrError Demo.other_error)]
           (Demo.T0 + Demo.second) (Demo.reply Demo.target4) "192.0.2.1" []).
  - demo_listens.
  - reflexivity.
  - demo_survives.
  - by_running.
  - by_running.
  - by_running.
Defined.

(** ** Timeouts end the loop, other read errors do not *)

Lemma setup_events_reads w st ip wb0 :
  length (filter (λ e, is_read e = true) (setup_events w st ip wb0)) = 0%nat.
Proof. reflexivity. Qed.

Lemma read_error_timeout w ip rt wb rdl cap q err :
  read_error rdl (head q) = Some err →
  is_timeout err = true →
  listen_result w ip rt wb rdl cap q = Some false
  ∧ listen_events w ip rt wb rdl cap q = ev_timeout.
Proof.
  unfold read_error, ReadFrom.
  destruct q as [|[t a] q]; simpl.
  - by destruct rdl.
  - unfold verdict; simpl. destruct (deadline_passed rdl t); [done|].
    destruct a as [e|data peer]; [|done].
    intros [= ->] ->. done.
Qed.

Lemma read_error_other rdl q err :
  read_error rdl (head q) = Some err →
  is_timeout err = false →
  ∃ t post, q = (t, ArrError err) :: post ∧ deadline_passed rdl t = false.
Proof.
  unfold read_error, ReadFrom.
  destruct q as [|[t a] q]; simpl.
  - destruct rdl; [|done]. intros [= <-] Hf. by vm_compute in Hf.
  - destruct (deadline_passed rdl t) eqn:Hd;
      [intros [= <-] Hf; by vm_compute in Hf|].
    destruct a as [e|data peer]; [|done].
    intros [= ->] _. by exists t, q.
Qed.

(** C2. In the receive loop of a probe that has passed over the arrivals
    [pre], let the next read fail with [err]. If [err] is a timeout (a
    [net.Error] whose [Timeout()] is true), the probe returns [false] at
    once: the failed read is its last, followed only by the log line and
    the close of the socket. If [err] is no timeout, it is logged, the
    loop issues another read, and the probe answers what it answers
    without that arrival. *)
Theorem C2_timeout_ends_other_errors_continue
    (w : World) (st : State) (ip : IPAddr) (wb0 wb : bytes)
    (pre q : list (Time * Arrival)) (err : error) :
  Listens w st ip wb0 wb →
  incoming w = pre ++ q →
  Forall (passed_over w ip wb) pre →
  read_error (listening_deadline w) (head q) = Some err →
  (is_timeout err = true →
     result (ProbeICMP w st) = Some false
     ∧ trace (final_state (ProbeICMP w st))
       = trace st ++ setup_events w st ip wb0 ++ skipped_events pre
         ++ [EvReadFrom; EvLog level_Warn "Timeout reading from socket";
             EvClose]
     ∧ reads_issued (final_state (ProbeICMP w st))
       = (reads_issued st + length pre + 1)%nat)
  ∧ (is_timeout err = false →
     ∃ ta post,
       q = ta :: post
       ∧ (∃ rest,
            trace (final_state (ProbeICMP w st))
            = trace st ++ setup_events w st ip wb0 ++ skipped_events pre
              ++ [EvReadFrom; EvLog level_Error "Error reading from socket";
                  EvReadFrom] ++ rest)
       ∧ result (ProbeICMP w st)
         = result (ProbeICMP (with_incoming w (pre ++ post)) st)).
Proof.
  intros HL Hq Hpre Herr.
  destruct (ProbeICMP_trace_skip w st ip wb0 wb pre q HL Hq Hpre) as [Hr Ht].
  split; intros Hto.
  - destruct (read_error_timeout w ip (replyType_of ip) wb _ 1500 q err
                Herr Hto) as [Ha He].
    rewrite Ha in Hr, Ht. rewrite He in Ht.
    split_and!; [done|done|].
    unfold reads_issued. rewrite Ht.
    rewrite !list.filter_app, !length_app, setup_events_reads,
      skipped_events_reads.
    change (length (filter _ ev_timeout)) with 1%nat.
    change (length (filter _ [EvClose])) with 0%nat. lia.
  - destruct (read_error_other _ q err Herr Hto) as (t & post & -> & Hd).
    exists (t, ArrError err), post.
    assert (passed_over w ip wb (t, ArrError err)) as Hskip
      by (by apply verdict_other_error).
    split_and!; [done| |by eapply ProbeICMP_pass_over].
    rewrite Ht. cbn [listen_events]. rewrite Hskip. cbn [ev_skip snd].
    destruct (listen_events_head w ip (replyType_of ip) wb
                (listening_deadline w) 1500 post) as [rest ->].
    eexists. rewrite <- !app_assoc. simpl. reflexivity.
Qed.

Lemma C2_witness :
  result
    (ProbeICMP
       (Demo.world Demo.target4 Demo.in_2s
          [(Demo.T0 + Demo.second, ArrPacket [x00] "192.0.2.1");
           (Demo.T0 + 3 * Demo.second,
            ArrPacket (Demo.reply Demo.target4) "192.0.2.1")])
       Demo.st0)
  = Some false
  ∧ result
      (ProbeICMP
         (Demo.world Demo.target4 Demo.in_2s
            [(Demo.T0 + Demo.second, ArrError Demo.other_error);
             (Demo.T0 + Demo.second,
              ArrPacket (Demo.reply Demo.target4) "192.0.2.1")])
         Demo.st0)
    = Some true.
Proof.
  split.
  - apply (C2_timeout_ends_other_errors_continue _ Demo.st0 Demo.target4
             (Demo.request Demo.target4) (Demo.reply Demo.target4)
             [(Demo.T0 + Demo.second, ArrPacket [x00] "192.0.2.1")]
             [(Demo.T0 + 3 * Demo.second,
               ArrPacket (Demo.reply Demo.target4) "192.0.2.1")]
             errTimeout);
      [demo_listens|reflexivity|demo_survives|by_running|by_running].
  - destruct (C2_timeout_ends_other_errors_continue
                (Demo.world Demo.target4 Demo.in_2s
                   [(Demo.T0 + Demo.second, ArrError Demo.other_error);
                    (Demo.T0 + Demo.second,
                     ArrPacket (Demo.reply Demo.target4) "192.0.2.1")])
                Demo.st0 Demo.target4
                (Demo.request Demo.target4) (Demo.reply Demo.target4)
                []
                [(Demo.T0 + Demo.second, ArrError Demo.other_error);
                 (Demo.T0 + Demo.second,
                  ArrPacket (Demo.reply Demo.target4) "192.0.2.1")]
                Demo.other_error)
      as [_ Hgo]; [demo_listens|reflexivity|demo_survives|by_running|].
    destruct (Hgo eq_refl) as (ta & post & Hq & _ & ->).
    inversion Hq; subst. by_running.
Defined.

(** ** Packets from other peers *)

(** C3. A packet received from a sender whose address, in string form,
    differs from the resolved target is discarded whatever its bytes
    are: nothing is logged for it, the loop issues the next read, and
    the probe answers what it answers without that packet. When a later
    packet from the target with matching bytes follows (the arrivals in
    between being passed over as well), the probe returns [true], having
    read every one of these packets. *)
Theorem C3_other_peer_discarded
    (w : World) (st : State) (ip : IPAddr) (wb0 wb : bytes)
    (pre : list (Time * Arrival)) (t : Time) (data : bytes) (peer : string)
    (post : list (Time * Arrival)) :
  Listens w st ip wb0 wb →
  incoming w = pre ++ (t, ArrPacket data peer) :: post →
  Forall (passed_over w ip wb) pre →
  in_time w t →
  peer ≠ IPAddr_String w ip →
  (∃ rest,
     trace (final_state (ProbeICMP w st))
     = trace st ++ setup_events w st ip wb0 ++ skipped_events pre
       ++ [EvReadFrom; EvReadFrom] ++ rest)
  ∧ result (ProbeICMP w st)
    = result (ProbeICMP (with_incoming w (pre ++ post)) st)
  ∧ ∀ mid t' data' post',
      post = mid ++ (t', ArrPacket data' (IPAddr_String w ip)) :: post' →
      Forall (passed_over w ip wb) mid →
      in_time w t' →
      compared (replyType_of ip) (take 1500 data') = wb →
      ∃ st', ProbeICMP w st = Returns true st'
             ∧ reads_issued st'
               = (reads_issued st + length pre + 1 + length mid + 1)%nat.
Proof.
  intros HL Hq Hpre Ht Hp.
  assert (passed_over w ip wb (t, ArrPacket data peer)) as Hskip
    by (by apply verdict_other_peer).
  split_and!.
  - destruct (ProbeICMP_trace_skip w st ip wb0 wb pre _ HL Hq Hpre)
      as [_ Htr].
    rewrite Htr. cbn [listen_events]. rewrite Hskip. cbn [ev_skip snd].
    destruct (listen_events_head w ip (replyType_of ip) wb
                (listening_deadline w) 1500 post) as [rest ->].
    eexists. rewrite <- !app_assoc. simpl. reflexivity.
  - by eapply ProbeICMP_pass_over.
  - intros mid t' data' post' -> Hmid Ht' Hb.
    assert (Forall (passed_over w ip wb)
              (pre ++ (t, ArrPacket data peer) :: mid)) as Hall.
    { apply Forall_app. split; [done|]. by constructor. }
    assert (incoming w
            = (pre ++ (t, ArrPacket data peer) :: mid)
              ++ (t', ArrPacket data' (IPAddr_String w ip)) :: post') as Hq'.
    { by rewrite Hq, <- app_assoc. }
    destruct (ProbeICMP_trace_skip w st ip wb0 wb _ _ HL Hq' Hall)
      as [Hr Htr].
    cbn [listen_result listen_events] in Hr, Htr.
    rewrite (verdict_match w ip (replyType_of ip) wb (listening_deadline w)
               1500 t' data' _ Ht' eq_refl Hb) in Hr, Htr.
    destruct (ProbeICMP w st) as [b st'|st']; [|done].
    injection Hr as ->. exists st'. split; [done|].
    unfold reads_issued. cbn [final_state] in Htr. rewrite Htr.
    rewrite !list.filter_app, !length_app, setup_events_reads,
      skipped_events_reads, length_app.
    change (length (filter _ ev_match)) with 1%nat.
    change (length (filter _ [EvClose])) with 0%nat.
    simpl. lia.
Qed.

Lemma C3_witness :
  ∃ st',
    ProbeICMP
      (Demo.world Demo.target4 Demo.in_2s
         [(Demo.T0 + Demo.second,
           ArrPacket (Demo.reply Demo.target4) "198.51.100.7");
          (Demo.T0 + Demo.second,
           ArrPacket (Demo.reply Demo.target4) "192.0.2.1")])
      Demo.st0
    = Returns true st'
    ∧ reads_issued st' = 2%nat.
Proof.
  destruct (C3_other_peer_discarded
              (Demo.world Demo.target4 Demo.in_2s
                 [(Demo.T0 + Demo.second,
                   ArrPacket (Demo.reply Demo.target4) "198.51.100.7");
                  (Demo.T0 + Demo.second,
                   ArrPacket (Demo.reply Demo.target4) "192.0.2.1")])
              Demo.st0 Demo.target4
              (Demo.request Demo.target4) (Demo.reply Demo.target4)
              [] (Demo.T0 + Demo.second) (Demo.reply Demo.target4)
              "198.51.100.7"
              [(Demo.T0 + Demo.second,
                ArrPacket (Demo.reply Demo.target4) "192.0.2.1")])
    as (_ & _ & Hlater);
    [demo_listens|reflexivity|demo_survives|by_running|by_running|].
  apply (Hlater [] (Demo.T0 + Demo.second) (Demo.reply Demo.target4) []);
    [reflexivity|demo_survives|by_running|by_running].
Defined.

(** ** The ICMPv6 checksum *)

Lemma clear_checksum_agree (a b : bytes) :
  length a = length b →
  (∀ i : nat, i ≠ 2%nat → i ≠ 3%nat → a !! i = b !! i) →
  clear_checksum a = clear_checksum b.
Proof.
  intros Hlen Hsame. apply list_eq. intros i. unfold clear_checksum.
  rewrite !list_lookup_insert, !length_insert, Hlen.
  repeat case_decide; try done.
  destruct (decide (i < length b)%nat); [apply Hsame; lia|].
  by rewrite !lookup_ge_None_2 by lia.
Qed.

(** The codec leaves the checksum of an ICMPv6 message to the kernel. *)
Lemma icmp_Marshal_ipv6_unsummed (m : Message) (n : Z) (b : bytes) :
  Type_ m = ipv6_ICMPType n →
  icmp.Message_Marshal m = Some b →
  clear_checksum b = b.
Proof.
  unfold icmp.Message_Marshal. intros ->. simpl. by intros [= <-].
Qed.

Lemma clear_checksum_overwrite (b : bytes) (x y : byte) :
  clear_checksum (<[2%nat:=x]> (<[3%nat:=y]> b)) = clear_checksum b.
Proof.
  apply clear_checksum_agree; [by rewrite !length_insert|].
  intros i H2 H3. by rewrite !list_lookup_insert_ne.
Qed.

Lemma verdict_checksum_irrelevant w ip wb rdl t data peer (x y : byte) :
  verdict w ip ipv6_ICMPTypeEchoReply wb rdl 1500
    (t, ArrPacket (<[2%nat:=x]> (<[3%nat:=y]> data)) peer)
  = verdict w ip ipv6_ICMPTypeEchoReply wb rdl 1500 (t, ArrPacket data peer).
Proof.
  unfold verdict, is_reply, compared. cbn [fst snd].
  rewrite !(bool_decide_true (ipv6_ICMPTypeEchoReply = _)) by done.
  by rewrite !take_insert_comm, clear_checksum_overwrite.
Qed.

Lemma listen_result_replace w ip rt wb rdl cap pre a a' post :
  verdict w ip rt wb rdl cap a = verdict w ip rt wb rdl cap a' →
  listen_result w ip rt wb rdl cap (pre ++ a :: post)
  = listen_result w ip rt wb rdl cap (pre ++ a' :: post).
Proof.
  intros Hv. induction pre as [|b pre IH]; simpl.
  - by rewrite Hv.
  - by rewrite IH.
Qed.

(** C4. In an IPv6 probe, the answer does not depend on the bytes at
    offsets 2 and 3 of a received packet: with any other two bytes there
    the probe answers the same. When the expected reply [wb] has zero
    checksum bytes (as it has when marshalled without a pseudo-header),
    a packet received from the target whose bytes as read agree with
    [wb] everywhere except possibly at offsets 2 and 3 is a match: the
    probe answers [true]. *)
Theorem C4_ipv6_checksum_ignored
    (w : World) (st : State) (ip : IPAddr) (wb0 wb : bytes)
    (pre : list (Time * Arrival)) (t : Time) (data : bytes) (peer : string)
    (post : list (Time * Arrival)) :
  Listens w st ip wb0 wb →
  IP_To4 (IP ip) = None →
  incoming w = pre ++ (t, ArrPacket data peer) :: post →
  (∀ x y : byte,
     result
       (ProbeICMP
          (with_incoming w
             (pre ++ (t, ArrPacket (<[2%nat:=x]> (<[3%nat:=y]> data)) peer)
                  :: post))
          st)
     = result (ProbeICMP w st))
  ∧ (clear_checksum wb = wb →
     Forall (survives w) pre →
     in_time w t →
     peer = IPAddr_String w ip →
     length (take 1500 data) = length wb →
     (∀ i : nat, i ≠ 2%nat → i ≠ 3%nat → take 1500 data !! i = wb !! i) →
     result (ProbeICMP w st) = Some true).
Proof.
  intros HL H6 Hq. split.
  - intros x y.
    pose proof (Listens_with_incoming w
                  (pre ++ (t, ArrPacket (<[2%nat:=x]> (<[3%nat:=y]> data)) peer)
                       :: post) st ip wb0 wb HL) as HL'.
    rewrite (ProbeICMP_result w st ip wb0 wb HL).
    rewrite (ProbeICMP_result _ st ip wb0 wb HL').
    rewrite Hq, listen_with_incoming.
    change (listening_deadline (with_incoming w ?q))
      with (listening_deadline w).
    cbn [incoming with_incoming].
    apply listen_result_replace.
    unfold replyType_of. rewrite H6. apply verdict_checksum_irrelevant.
  - intros Hwb Hpre Ht Hp Hlen Hsame.
    rewrite (ProbeICMP_result w st ip wb0 wb HL), Hq.
    apply listen_match.
    + eapply list.Forall_impl; [exact Hpre|].
      intros ta. apply survives_no_timeout.
    + apply verdict_match; [done|done|].
      unfold compared, replyType_of. rewrite H6, bool_decide_true by done.
      rewrite <- Hwb. by apply clear_checksum_agree.
Qed.

Lemma C4_witness :
  result
    (ProbeICMP
       (Demo.world Demo.target6 Demo.in_2s
          [(Demo.T0 + Demo.second,
            ArrPacket (<[2%nat:=xab]> (<[3%nat:=xcd]> (Demo.reply Demo.target6)))
                      "2001:db8::1")])
       Demo.st0)
  = Some true.
Proof.
  destruct (C4_ipv6_checksum_ignored
              (Demo.world Demo.target6 Demo.in_2s
                 [(Demo.T0 + Demo.second,
                   ArrPacket
                     (<[2%nat:=xab]> (<[3%nat:=xcd]> (Demo.reply Demo.target6)))
                     "2001:db8::1")])
              Demo.st0 Demo.target6
              (Demo.request Demo.target6) (Demo.reply Demo.target6)
              [] (Demo.T0 + Demo.second)
              (<[2%nat:=xab]> (<[3%nat:=xcd]> (Demo.reply Demo.target6)))
              "2001:db8::1" []) as [_ Hmatch];
    [demo_listens|by_running|reflexivity|].
  apply Hmatch.
  - by_running.
  - demo_survives.
  - by_running.
  - by_running.
  - by_running.
  - intros i H2 H3.
    do 2 (destruct i as [|i]; [by_running|]).
    destruct i as [|i]; [by destruct H2|].
    destruct i as [|i]; [by destruct H3|].
    by_running.
Defined.

(** ** Failures before the loop *)

Ltac probe_aborts :=
  unfold ProbeICMP, request_of, reply_of, request_of,
    requestType_of, replyType_of, network_of, address_of in *;
  repeat match goal with
         | H : chooseProtocol _ = _ |- _ => rewrite H; clear H
         end;
  destruct (IP_To4 (IP _)); cbn zeta beta iota;
  repeat match goal with
         | H : ListenPacket _ _ _ = _ |- _ => rewrite H; clear H
         end;
  cbn [negb getICMPSequence icmpSequence socket_opened emit Log];
  cbn [set_Type Type_ Code Body] in *;
  repeat match goal with
         | H : Marshal _ _ = _ |- _ =>
             rewrite H; clear H;
             cbn [negb set_Type Type_ Code Body] in *
         | H : WriteTo _ _ _ = _ |- _ =>
             rewrite H; clear H;
             cbn [negb set_Type Type_ Code Body] in *
         end;
  cbn [defer_Close]; f_equal; apply state_eq; simpl;
  rewrite <- ?app_assoc; reflexivity.

(** C5. A resolution error, a socket-open error, a marshal error (of the
    request or of the expected reply) and a write error each make the
    probe return [false] at once: the failing call is made once and is
    followed only by its log line and, when a socket is open, its close.
    When marshalling the request fails, no packet has been sent and no
    read has been issued. *)
Theorem C5_failures_abort (w : World) (st : State) :
  (chooseProtocol w = None →
   ProbeICMP w st
   = Returns false
       (extend [EvResolve; EvLog level_Warn "Error resolving address"] st))
  ∧ (∀ ip,
       chooseProtocol w = Some ip →
       ListenPacket w (network_of ip) (address_of ip) = false →
       ProbeICMP w st
       = Returns false
           (extend [EvResolve;
                    EvLog level_Info "Creating socket";
                    EvListen (network_of ip) (address_of ip);
                    EvLog level_Error "Error listening to socket"] st))
  ∧ (∀ ip,
       chooseProtocol w = Some ip →
       ListenPacket w (network_of ip) (address_of ip) = true →
       Marshal w (request_of w st ip) = None →
       let st' :=
         socket_Close
           (extend [EvResolve;
                    EvLog level_Info "Creating socket";
                    EvListen (network_of ip) (address_of ip);
                    EvLog level_Info "Creating ICMP packet";
                    EvMarshal (request_of w st ip);
                    EvLog level_Error "Error marshalling packet"]
                   (in_flight st)) in
       ProbeICMP w st = Returns false st'
       ∧ packets_sent st' = packets_sent st
       ∧ reads_issued st' = reads_issued st)
  ∧ (∀ ip wb0,
       chooseProtocol w = Some ip →
       ListenPacket w (network_of ip) (address_of ip) = true →
       Marshal w (request_of w st ip) = Some wb0 →
       WriteTo w wb0 ip = false →
       let st' :=
         socket_Close
           (extend [EvResolve;
                    EvLog level_Info "Creating socket";
                    EvListen (network_of ip) (address_of ip);
                    EvLog level_Info "Creating ICMP packet";
                    EvMarshal (request_of w st ip);
                    EvLog level_Info "Writing out packet";
                    EvWriteTo wb0 ip;
                    EvLog level_Warn "Error writing to socket"]
                   (in_flight st)) in
       ProbeICMP w st = Returns false st'
       ∧ reads_issued st' = reads_issued st)
  ∧ (∀ ip wb0,
       chooseProtocol w = Some ip →
       ListenPacket w (network_of ip) (address_of ip) = true →
       Marshal w (request_of w st ip) = Some wb0 →
       WriteTo w wb0 ip = true →
       Marshal w (reply_of w st ip) = None →
       let st' :=
         socket_Close
           (extend [EvResolve;
                    EvLog level_Info "Creating socket";
                    EvListen (network_of ip) (address_of ip);
                    EvLog level_Info "Creating ICMP packet";
                    EvMarshal (request_of w st ip);
                    EvLog level_Info "Writing out packet";
                    EvWriteTo wb0 ip;
                    EvMarshal (reply_of w st ip);
                    EvLog level_Error "Error marshalling packet"]
                   (in_flight st)) in
       ProbeICMP w st = Returns false st'
       ∧ reads_issued st' = reads_issued st).
Proof.
  split_and!.
  - intros Hres. unfold ProbeICMP. rewrite Hres. by norm_state.
  - intros ip Hres Hsock. probe_aborts.
  - intros ip Hres Hsock Hreq st'. split_and!.
    + subst st'. probe_aborts.
    + subst st'. unfold packets_sent. simpl.
      rewrite !list.filter_app, !length_app.
      change (length (filter _ [EvClose])) with 0%nat.
      match goal with
      | |- context [length (filter ?P (?e :: ?es))] =>
          change (length (filter P (e :: es))) with 0%nat
      end. lia.
    + subst st'. unfold reads_issued. simpl.
      rewrite !list.filter_app, !length_app.
      change (length (filter _ [EvClose])) with 0%nat.
      match goal with
      | |- context [length (filter ?P (?e :: ?es))] =>
          change (length (filter P (e :: es))) with 0%nat
      end. lia.
  - intros ip wb0 Hres Hsock Hreq Hwr st'. split.
    + subst st'. probe_aborts.
    + subst st'. unfold reads_issued. simpl.
      rewrite !list.filter_app, !length_app.
      change (length (filter _ [EvClose])) with 0%nat.
      match goal with
      | |- context [length (filter ?P (?e :: ?es))] =>
          change (length (filter P (e :: es))) with 0%nat
      end. lia.
  - intros ip wb0 Hres Hsock Hreq Hwr Hrep st'. split.
    + subst st'. probe_aborts.
    + subst st'. unfold reads_issued. simpl.
      rewrite !list.filter_app, !length_app.
      change (length (filter _ [EvClose])) with 0%nat.
      match goal with
      | |- context [length (filter ?P (?e :: ?es))] =>
          change (length (filter P (e :: es))) with 0%nat
      end. lia.
Qed.

Lemma C5_witness :
  let q := [(Demo.T0 + Demo.second,
             ArrPacket (Demo.reply Demo.target4) "192.0.2.1")] in
  result (ProbeICMP Demo.no_resolution Demo.st0) = Some false
  ∧ result (ProbeICMP Demo.no_socket Demo.st0) = Some false
  ∧ (result (ProbeICMP (Demo.no_marshal ipv4_ICMPTypeEcho q) Demo.st0)
     = Some false
     ∧ packets_sent
         (final_state (ProbeICMP (Demo.no_marshal ipv4_ICMPTypeEcho q) Demo.st0))
       = 0%nat
     ∧ reads_issued
         (final_state (ProbeICMP (Demo.no_marshal ipv4_ICMPTypeEcho q) Demo.st0))
       = 0%nat)
  ∧ result (ProbeICMP (Demo.no_write q) Demo.st0) = Some false
  ∧ result (ProbeICMP (Demo.no_marshal ipv4_ICMPTypeEchoReply q) Demo.st0)
    = Some false.
Proof.
  intros q. split_and!.
  - destruct (C5_failures_abort Demo.no_resolution Demo.st0) as (H & _).
    by rewrite (H eq_refl).
  - destruct (C5_failures_abort Demo.no_socket Demo.st0) as (_ & H & _).
    by rewrite (H Demo.target4 eq_refl eq_refl).
  - destruct (C5_failures_abort (Demo.no_marshal ipv4_ICMPTypeEcho q) Demo.st0)
      as (_ & _ & H & _).
    destruct (H Demo.target4 eq_refl eq_refl eq_refl) as (-> & _). done.
  - destruct (C5_failures_abort (Demo.no_marshal ipv4_ICMPTypeEcho q) Demo.st0)
      as (_ & _ & H & _).
    destruct (H Demo.target4 eq_refl eq_refl eq_refl) as (Hp & Hs & _).
    rewrite Hp. cbn [final_state]. by rewrite Hs.
  - destruct (C5_failures_abort (Demo.no_marshal ipv4_ICMPTypeEcho q) Demo.st0)
      as (_ & _ & H & _).
    destruct (H Demo.target4 eq_refl eq_refl eq_refl) as (Hp & _ & Hr).
    rewrite Hp. cbn [final_state]. by rewrite Hr.
  - destruct (C5_failures_abort (Demo.no_write q) Demo.st0)
      as (_ & _ & _ & H & _).
    destruct (H Demo.target4 (Demo.request Demo.target4)
                eq_refl eq_refl eq_refl eq_refl) as (-> & _). done.
  - destruct (C5_failures_abort (Demo.no_marshal ipv4_ICMPTypeEchoReply q)
                Demo.st0) as (_ & _ & _ & _ & H).
    destruct (H Demo.target4 (Demo.request Demo.target4)
                eq_refl eq_refl eq_refl eq_refl eq_refl) as (-> & _). done.
Defined.

(** ** A match needs the length of the expected reply *)

Lemma compared_length rt (b : bytes) : length (compared rt b) = length b.
Proof.
  unfold compared, clear_checksum.
  case_bool_decide; by rewrite ?length_insert.
Qed.

Lemma verdict_other_length w ip rt wb rdl t data peer :
  deadline_passed rdl t = false →
  Nat.min (length data) 1500 ≠ length wb →
  verdict w ip rt wb rdl 1500 (t, ArrPacket data peer) = VSkip.
Proof.
  intros Hd Hlen. apply verdict_other_bytes; [done|].
  intros E. apply Hlen. rewrite <- E, compared_length, length_take. lia.
Qed.

(** A probe that returns [true] has got to its receive loop. *)
Lemma ProbeICMP_true_listens w st st' :
  ProbeICMP w st = Returns true st' →
  ∃ ip wb0 wb, Listens w st ip wb0 wb.
Proof.
  unfold ProbeICMP.
  destruct (chooseProtocol w) as [ip|] eqn:Hres; [|done].
  intros Hret. exists ip.
  enough (∃ wb0 wb,
            ListenPacket w (network_of ip) (address_of ip) = true
            ∧ Marshal w (request_of w st ip) = Some wb0
            ∧ WriteTo w wb0 ip = true
            ∧ Marshal w (reply_of w st ip) = Some wb
            ∧ SetReadDeadline w (probe_deadline w) = true)
    as (wb0 & wb & ? & ? & ? & ? & ?) by (by exists wb0, wb).
  revert Hret.
  unfold reply_of, request_of, requestType_of, replyType_of,
    network_of, address_of.
  fold (probe_deadline w).
  destruct (IP_To4 (IP ip)); cbn zeta beta iota.
  all: destruct (ListenPacket w _ _) eqn:Hsock; cbn [negb]; [|done].
  all: cbn [getICMPSequence icmpSequence socket_opened emit Log
              set_Type Type_ Code Body].
  all: destruct (Marshal w _) as [wb0|] eqn:Hreq; [|done].
  all: destruct (WriteTo w wb0 ip) eqn:Hwr; cbn [negb]; [|done].
  all: destruct (Marshal w _) as [wb|] eqn:Hrep in |- *; [|done].
  all: destruct (SetReadDeadline w (probe_deadline w)) eqn:Hdl;
         cbn [negb]; [|done].
  all: intros _; by exists wb0, wb.
Qed.

(** C9. The probe returns [true] only on a packet for which the number
    of bytes read equals the length of the expected reply [wb]; that
    packet is the last one it reads. A packet read with any other number
    of bytes, in particular one whose bytes are a strict prefix of [wb]
    or extend [wb] by further bytes, never matches: the probe answers
    what it answers without that packet. *)
Theorem C9_match_needs_equal_length (w : World) (st : State) :
  (∀ st', ProbeICMP w st = Returns true st' →
     ∃ ip wb0 wb pre t data post,
       Listens w st ip wb0 wb
       ∧ incoming w = pre ++ (t, ArrPacket data (IPAddr_String w ip)) :: post
       ∧ Forall (passed_over w ip wb) pre
       ∧ reads_issued st' = (reads_issued st + length pre + 1)%nat
       ∧ Nat.min (length data) 1500 = length wb
       ∧ bytes_Compare (compared (replyType_of ip) (take 1500 data)) wb = 0)
  ∧ (∀ ip wb0 wb pre t data peer post,
       Listens w st ip wb0 wb →
       incoming w = pre ++ (t, ArrPacket data peer) :: post →
       in_time w t →
       Nat.min (length data) 1500 ≠ length wb →
       result (ProbeICMP w st)
       = result (ProbeICMP (with_incoming w (pre ++ post)) st))
  ∧ (∀ ip wb0 wb pre t data peer post k,
       Listens w st ip wb0 wb →
       incoming w = pre ++ (t, ArrPacket data peer) :: post →
       in_time w t →
       k ≠ [] →
       wb = take 1500 data ++ k ∨ take 1500 data = wb ++ k →
       result (ProbeICMP w st)
       = result (ProbeICMP (with_incoming w (pre ++ post)) st)).
Proof.
  assert (∀ ip wb0 wb pre t data peer post,
            Listens w st ip wb0 wb →
            incoming w = pre ++ (t, ArrPacket data peer) :: post →
            in_time w t →
            Nat.min (length data) 1500 ≠ length wb →
            result (ProbeICMP w st)
            = result (ProbeICMP (with_incoming w (pre ++ post)) st)) as Hlen.
  { intros ip wb0 wb pre t data peer post HL Hq Ht Hne.
    eapply ProbeICMP_pass_over; [done|done|].
    by apply verdict_other_length. }
  split_and!; [|done|].
  - intros st' Hret.
    destruct (ProbeICMP_true_listens w st st' Hret) as (ip & wb0 & wb & HL).
    pose proof (ProbeICMP_result w st ip wb0 wb HL) as Hr.
    rewrite Hret in Hr. symmetry in Hr. cbn [result] in Hr.
    destruct (listen_true_inv _ _ _ _ _ _ _ Hr)
      as (pre & [t a] & post & Hq & Hpre & Hta & Hev).
    destruct (verdict_match_inv _ _ _ _ _ _ _ Hta)
      as (data & Ha & Hd & Hb).
    simpl in Ha. subst a.
    exists ip, wb0, wb, pre, t, data, post.
    split_and!; [done|done|done| | |].
    + destruct (ProbeICMP_trace_skip w st ip wb0 wb pre _ HL Hq Hpre)
        as [_ Htr].
      rewrite Hret in Htr. cbn [final_state listen_events listen_result] in Htr.
      rewrite Hta in Htr.
      unfold reads_issued. rewrite Htr.
      rewrite !list.filter_app, !length_app, setup_events_reads,
        skipped_events_reads.
      change (length (filter _ ev_match)) with 1%nat.
      change (length (filter _ [EvClose])) with 0%nat. lia.
    + rewrite <- Hb, compared_length, length_take. lia.
    + by apply bytes_Compare_0.
  - intros ip wb0 wb pre t data peer post k HL Hq Ht Hk Hor.
    eapply Hlen; [done|done|done|].
    intros E. apply Hk.
    assert (length (take 1500 data) = length wb) as E'
      by (rewrite length_take; lia).
    destruct Hor as [Hor|Hor]; apply (f_equal length) in Hor;
      rewrite length_app in Hor; apply nil_length_inv; lia.
Qed.

Lemma C9_witness :
  (∃ pre t data post,
     [(Demo.T0 + Demo.second,
       ArrPacket (Demo.reply Demo.target4 ++ [x00]) "192.0.2.1"%string);
      (Demo.T0 + Demo.second,
       ArrPacket (Demo.reply Demo.target4) "192.0.2.1"%string)]
     = pre ++ (t, ArrPacket data "192.0.2.1"%string) :: post
     ∧ Nat.min (length data) 1500 = length (Demo.reply Demo.target4))
  ∧ result
      (ProbeICMP
         (Demo.world Demo.target4 Demo.in_2s
            [(Demo.T0 + Demo.second,
              ArrPacket (take 20 (Demo.reply Demo.target4))
                        "192.0.2.1"%string)])
         Demo.st0)
    = Some false.
Proof.
  split.
  - destruct (C9_match_needs_equal_length
                (Demo.world Demo.target4 Demo.in_2s
                   [(Demo.T0 + Demo.second,
                     ArrPacket (Demo.reply Demo.target4 ++ [x00])
                               "192.0.2.1"%string);
                    (Demo.T0 + Demo.second,
                     ArrPacket (Demo.reply Demo.target4) "192.0.2.1"%string)])
                Demo.st0)
      as (Honly & _).
    destruct (Honly _ eq_refl)
      as (ip & wb0 & wb & pre & t & data & post & HL & Hq & _ & _ & Hn & _).
    destruct HL as [[Hres _ _ _ Hrep] _].
    injection Hres as <-. injection Hrep as <-.
    by exists pre, t, data, post.
  - destruct (C9_match_needs_equal_length
                (Demo.world Demo.target4 Demo.in_2s
                   [(Demo.T0 + Demo.second,
                     ArrPacket (take 20 (Demo.reply Demo.target4))
                               "192.0.2.1"%string)])
                Demo.st0)
      as (_ & Hother & _).
    rewrite (Hother Demo.target4
               (Demo.request Demo.target4) (Demo.reply Demo.target4)
               [] (Demo.T0 + Demo.second)
               (take 20 (Demo.reply Demo.target4)) "192.0.2.1"%string []);
      [by_running|demo_listens|reflexivity|by_running|by_running].
Defined.

(** ** The socket is closed when the probe returns *)

Lemma recv_loop_open_sockets w ip rt wb rdl q rb st :
  open_sockets (final_state (recv_loop w ip rt wb rdl q rb st))
  = open_sockets st.
Proof. rewrite recv_loop_spec. by destruct (listen_result _ _ _ _ _ _ _). Qed.

Lemma defer_Close_returns o b st' :
  defer_Close o = Returns b st' →
  ∃ st'', o = Returns b st'' ∧ st' = socket_Close st''.
Proof. destruct o; simpl; [|done]. intros [= <- <-]. by eexists. Qed.

(** C8. Whenever the probe returns, on a match, on a timeout or on a
    failure at any stage, the process holds no more open sockets than
    before the call; and when the probe had opened a socket, closing it
    is the last thing it did. *)
Theorem C8_socket_closed_on_return
    (w : World) (st : State) (b : bool) (st' : State) :
  ProbeICMP w st = Returns b st' →
  open_sockets st' = open_sockets st
  ∧ (∀ ip, chooseProtocol w = Some ip →
           ListenPacket w (network_of ip) (address_of ip) = true →
           list.last (trace st') = Some EvClose).
Proof.
  intros Hret.
  destruct (chooseProtocol w) as [ip|] eqn:Hres.
  2:{ unfold ProbeICMP in Hret. rewrite Hres in Hret.
      injection Hret as <- <-. split; [done|]. by intros ip' [=]. }
  enough (open_sockets st' = open_sockets st
          ∧ (ListenPacket w (network_of ip) (address_of ip) = true →
             list.last (trace st') = Some EvClose)) as [Hopen Hlast].
  { split; [done|]. by intros ip' [= <-]. }
  assert (∀ o : Outcome,
            open_sockets (final_state o) = S (open_sockets st) →
            defer_Close o = Returns b st' →
            open_sockets st' = open_sockets st
            ∧ list.last (trace st') = Some EvClose) as Hclose.
  { intros o Ho (st'' & -> & ->)%defer_Close_returns. simpl in *.
    rewrite Ho. split; [done|]. by rewrite last_snoc. }
  revert Hret. unfold ProbeICMP, network_of, address_of. rewrite Hres.
  destruct (IP_To4 (IP ip)); cbn zeta beta iota.
  all: destruct (ListenPacket w _ _) eqn:Hsock; cbn [negb].
  all: try (intros [= <- <-]; split; done).
  all: intros Hret; apply Hclose in Hret;
    [destruct Hret as [-> Hlast]; split; done|].
  all: cbn [getICMPSequence].
  all: repeat match goal with
         | |- context [match Marshal ?x ?m with _ => _ end] =>
             destruct (Marshal x m); [|done]
         | |- context [if negb ?c then _ else _] =>
             destruct c; cbn [negb]; [|done]
         end.
  all: by rewrite recv_loop_open_sockets.
Qed.

Lemma C8_witness :
  open_sockets
    (final_state
       (ProbeICMP
          (Demo.world Demo.target4 Demo.in_2s
             [(Demo.T0 + Demo.second,
               ArrPacket (Demo.reply Demo.target4) "192.0.2.1")])
          Demo.st0))
  = open_sockets Demo.st0.
Proof.
  eapply (C8_socket_closed_on_return
            (Demo.world Demo.target4 Demo.in_2s
               [(Demo.T0 + Demo.second,
                 ArrPacket (Demo.reply Demo.target4) "192.0.2.1")])
            Demo.st0 true).
  by_running.
Defined.

(** ** The read deadline *)


Lemma listen_events_no_deadline w ip rt wb rdl cap q :
  omap deadline_of (listen_events w ip rt wb rdl cap q) = [].
Proof.
  induction q as [|[t a] q IH]; simpl.
  - by destruct rdl.
  - destruct (verdict _ _ _ _ _ _ _); [done| |done].
    rewrite omap_app, IH. by destruct a.
Qed.

Lemma deadlines_set_probe w st ip wb0 wb :
  Sends w st ip wb0 wb →
  deadlines_set (final_state (ProbeICMP w st))
  = deadlines_set st ++ [probe_deadline w].
Proof.
  intros HS. rewrite (ProbeICMP_sends w st ip wb0 wb HS). cbn zeta.
  destruct (SetReadDeadline w (probe_deadline w)); cbn [negb].
  - rewrite recv_loop_spec.
    destruct (listen_result _ _ _ _ _ _ _);
      cbn [outcome_of defer_Close final_state];
      unfold deadlines_set, socket_Close, Log, emit, extend, in_flight;
      cbn [trace];
      rewrite !omap_app, listen_events_no_deadline, <- ?app_assoc; done.
  - cbn [defer_Close final_state].
    unfold deadlines_set, socket_Close, Log, emit, extend, in_flight.
    cbn [trace]. by rewrite !omap_app, <- ?app_assoc.
Qed.

Lemma Time_Sub_exact (t u : Time) :
  minDuration ≤ t - u ≤ maxDuration → Time_Sub t u = t - u.
Proof.
  intros H. unfold Time_Sub. cbv zeta.
  destruct (Z.ltb_spec (t - u) minDuration); [lia|].
  destruct (Z.ltb_spec maxDuration (t - u)); [lia|done].
Qed.

(** C7, as stated: the instant handed to [SetReadDeadline] is the
    deadline of the context. It is not: the probe reads the clock twice
    on entry, and the deadline it sets is earlier by the time between
    the two readings. *)
Lemma C7_counterexample :
  ¬ (∀ (w : World) (st : State) (ip : IPAddr) (wb0 wb : bytes) (D : Time),
       Deadline w = (D, true) →
       Sends w st ip wb0 wb →
       deadlines_set (final_state (ProbeICMP w st)) = deadlines_set st ++ [D]).
Proof.
  intros Hexact.
  specialize (Hexact (Demo.world Demo.target4 Demo.in_2s []) Demo.st0
                Demo.target4 (Demo.request Demo.target4)
                (Demo.reply Demo.target4) (Demo.T0 + 2 * Demo.second)
                eq_refl).
  assert (Sends (Demo.world Demo.target4 Demo.in_2s []) Demo.st0
            Demo.target4 (Demo.request Demo.target4)
            (Demo.reply Demo.target4)) as HS by (split; by_running).
  specialize (Hexact HS). vm_compute in Hexact. discriminate Hexact.
Qed.

(** C7, amended. For a context that carries the deadline [D], a probe
    that gets to send hands to [SetReadDeadline] exactly one instant,
    [Now 0 + (D - Now 1)] for the two clock readings it takes on entry,
    the difference saturated to the range of a Duration. When the
    difference is in that range and the clock does not run backwards,
    this is [D] less the time between the two readings: never later
    than [D], equal to [D] just when the readings coincide, and fixed
    on entry rather than when listening starts. *)
Theorem C7_read_deadline_from_entry_clock
    (w : World) (st : State) (ip : IPAddr) (wb0 wb : bytes) (D : Time) :
  Deadline w = (D, true) →
  Sends w st ip wb0 wb →
  let d := Time_Add (Now w 0) (Time_Sub D (Now w 1)) in
  deadlines_set (final_state (ProbeICMP w st)) = deadlines_set st ++ [d]
  ∧ (minDuration ≤ D - Now w 1 ≤ maxDuration →
     Now w 0 ≤ Now w 1 →
     d = D - (Now w 1 - Now w 0) ∧ d ≤ D ∧ (d = D ↔ Now w 1 = Now w 0)).
Proof.
  intros HD HS d. split.
  - rewrite (deadlines_set_probe w st ip wb0 wb HS).
    unfold probe_deadline. by rewrite HD.
  - intros Hrange Hclock. subst d.
    rewrite (Time_Sub_exact _ _ Hrange). unfold Time_Add. lia.
Qed.

Lemma C7_witness :
  deadlines_set
    (final_state (ProbeICMP (Demo.world Demo.target4 Demo.in_2s []) Demo.st0))
  = [Demo.T0 + 2 * Demo.second - 1].
Proof.
  destruct (C7_read_deadline_from_entry_clock
              (Demo.world Demo.target4 Demo.in_2s []) Demo.st0
              Demo.target4 (Demo.request Demo.target4)
              (Demo.reply Demo.target4) (Demo.T0 + 2 * Demo.second)
              eq_refl) as [Hset Hval]; [split; by_running|].
  rewrite Hset.
  destruct Hval as (Hd & _); [split; by_running|by_running|].
  rewrite Hd. by_running.
Defined.

(** ** A context without deadline *)

Lemma probe_deadline_no_deadline (w : World) :
  (Deadline w).1 = zeroTime →
  - minDuration < Now w 0 →
  Now w 0 ≤ Now w 1 →
  probe_deadline w = Now w 0 + minDuration.
Proof.
  intros HD Hyear Hclock. unfold probe_deadline, Time_Add, Time_Sub.
  rewrite HD. cbv zeta. unfold zeroTime.
  destruct (Z.ltb_spec (0 - Now w 1) minDuration); [done|lia].
Qed.

(** C10. When the context carries no deadline ([ctx.Deadline()] answers
    the zero time and [ok = false]), the probe does not look at [ok]:
    it computes its read deadline from the zero time. With a clock that
    reads later than the largest Duration after the zero time and does
    not run backwards, that deadline is the first clock reading less the
    largest negative Duration: not the zero time, and in the past. So a
    probe that gets to send returns [false]; if the deadline can be set,
    the first read times out and is the only one. *)
Theorem C10_no_deadline_times_out
    (w : World) (st : State) (ip : IPAddr) (wb0 wb : bytes) :
  Deadline w = (zeroTime, false) →
  Sends w st ip wb0 wb →
  - minDuration < Now w 0 →
  Now w 0 ≤ Now w 1 →
  (∀ t a, head (incoming w) = Some (t, a) → Now w 1 ≤ t) →
  probe_deadline w = Now w 0 + minDuration
  ∧ zeroTime < probe_deadline w < Now w 0
  ∧ result (ProbeICMP w st) = Some false
  ∧ (SetReadDeadline w (probe_deadline w) = true →
     trace (final_state (ProbeICMP w st))
     = trace st ++ setup_events w st ip wb0
       ++ [EvReadFrom; EvLog level_Warn "Timeout reading from socket";
           EvClose]).
Proof.
  intros HD HS Hyear Hclock Harr.
  assert (probe_deadline w = Now w 0 + minDuration) as Hd
    by (apply probe_deadline_no_deadline; [by rewrite HD|done|done]).
  assert (zeroTime < probe_deadline w < Now w 0) as Hpast.
  { rewrite Hd. unfold zeroTime, minDuration in *. lia. }
  assert (listening_deadline w = Some (probe_deadline w)) as Hrdl.
  { unfold listening_deadline, read_deadline, Time_IsZero.
    destruct (Z.eqb_spec (probe_deadline w) zeroTime); [lia|done]. }
  assert (listen_result w ip (replyType_of ip) wb (listening_deadline w) 1500
            (incoming w) = Some false
          ∧ listen_events w ip (replyType_of ip) wb (listening_deadline w)
              1500 (incoming w) = ev_timeout) as [Ha He].
  { rewrite Hrdl. destruct (incoming w) as [|[t a] q] eqn:Hq; [done|].
    cbn [listen_result listen_events].
    rewrite verdict_deadline; [done|].
    simpl. apply Z.leb_le. specialize (Harr t a eq_refl). lia. }
  split; [exact Hd|]. split; [exact Hpast|]. split.
  - rewrite (ProbeICMP_sends w st ip wb0 wb HS). cbn zeta.
    destruct (SetReadDeadline w (probe_deadline w)); cbn [negb]; [|done].
    fold (listening_deadline w).
    by rewrite recv_loop_spec, make_bytes_length, Ha.
  - intros Hset.
    assert (Listens w st ip wb0 wb) as HL by (by split).
    destruct (ProbeICMP_trace_skip w st ip wb0 wb [] (incoming w) HL eq_refl
                (Forall_nil_2 _)) as [_ Htr].
    by rewrite Htr, Ha, He.
Qed.

Lemma C10_witness :
  result
    (ProbeICMP
       (Demo.world Demo.target4 (zeroTime, false)
          [(Demo.T0 + Demo.second,
            ArrPacket (Demo.reply Demo.target4) "192.0.2.1")])
       Demo.st0)
  = Some false.
Proof.
  apply (C10_no_deadline_times_out
           (Demo.world Demo.target4 (zeroTime, false)
              [(Demo.T0 + Demo.second,
                ArrPacket (Demo.reply Demo.target4) "192.0.2.1")])
           Demo.st0 Demo.target4
           (Demo.request Demo.target4) (Demo.reply Demo.target4)).
  - reflexivity.
  - split; by_running.
  - by_running.
  - by_running.
  - intros t a H. injection H as <- <-. by_running.
Defined.

(** ** The sequence numbers *)

Lemma uint16_incr_mod (x : Z) :
  uint16_incr (x mod 65536) = (x + 1) mod 65536.
Proof. unfold uint16_incr. by rewrite Zplus_mod_idemp_l. Qed.

Lemma ticket_incr (s : Z) (k : nat) :
  Concurrent.ticket (uint16_incr s) k = Concurrent.ticket s (S k).
Proof.
  unfold Concurrent.ticket, uint16_incr.
  rewrite <- Z.add_assoc, Zplus_mod_idemp_l. f_equal. lia.
Qed.

Lemma ticket_inj (s : Z) (j k : nat) :
  Z.of_nat j < 65536 → Z.of_nat k < 65536 →
  Concurrent.ticket s j = Concurrent.ticket s k → j = k.
Proof.
  unfold Concurrent.ticket. intros Hj Hk E.
  pose proof (Z.div_mod (s + Z.of_nat j + 1) 65536 ltac:(lia)) as Dj.
  pose proof (Z.div_mod (s + Z.of_nat k + 1) 65536 ltac:(lia)) as Dk.
  rewrite E in Dj. lia.
Qed.

Lemma tickets_NoDup (s : Z) (n : nat) :
  Z.of_nat n ≤ 65536 → NoDup (Concurrent.ticket s <$> seq 0 n).
Proof.
  intros Hn. apply NoDup_fmap_2_strong; [|apply NoDup_seq].
  intros j k Hj%elem_of_seq Hk%elem_of_seq. apply ticket_inj; lia.
Qed.

Lemma sequential_calls_tickets (n : nat) (st : State) :
  (sequential_calls n st).1 = Concurrent.ticket (icmpSequence st) <$> seq 0 n.
Proof.
  revert st. induction n as [|n IH]; intros st; [done|].
  cbn [sequential_calls getICMPSequence].
  destruct (sequential_calls n _) as [vs st'] eqn:E.
  pose proof (IH {| icmpSequence := uint16_incr (icmpSequence st);
                    open_sockets := open_sockets st;
                    trace := trace st |}) as IH'.
  rewrite E in IH'. cbn [fst icmpSequence] in *. rewrite IH'.
  cbn [seq fmap list_fmap]. f_equal.
  - unfold Concurrent.ticket, uint16_incr. f_equal. lia.
  - rewrite <- fmap_S_seq, <- list_fmap_compose.
    apply list_fmap_ext. intros _ k _. apply ticket_incr.
Qed.

Section ConcurrentFacts.

Import Concurrent.

Variable s0 : Z.
Hypothesis s0_range : 0 ≤ s0 < 65536.

Lemma invariant_init : invariant s0 [] (init s0).
Proof.
  split; [done|]. simpl. split; [done|].
  rewrite Z.mod_small; lia.
Qed.

(** A goroutine that is inside a call is the one that holds the mutex. *)
Lemma invariant_holder vs σ t :
  invariant s0 vs σ →
  pcs σ t ≠ Idle →
  locked σ = true
  ∧ holder_ok σ ((s0 + Z.of_nat (length vs)) mod 65536) t.
Proof.
  intros [_ Hst] Hpc. cbv zeta in Hst.
  destruct (locked σ).
  - destruct Hst as [t0 Hok]. split; [done|].
    destruct (decide (t = t0)) as [->|Hne]; [done|].
    destruct Hok as [Hidle _]. by rewrite Hidle in Hpc.
  - destruct Hst as [Hq _]. by rewrite Hq in Hpc.
Qed.

Lemma holder_ok_move σ t pc c c' l :
  (∀ t', t' ≠ t → pcs σ t' = Idle) →
  match pc with
  | Idle => False
  | AtIncr => c' = c
  | AtStore tmp => c' = c ∧ tmp = c
  | AtReturn => c' = uint16_incr c
  | AtUnlock v => c' = uint16_incr c ∧ v = uint16_incr c
  end →
  holder_ok (move σ t pc c' l) c t.
Proof.
  intros Hidle Hpc. split; cbn [move pcs counter].
  - intros t' Hne. rewrite fn_lookup_insert_ne by done. by apply Hidle.
  - by rewrite fn_lookup_insert.
Qed.

Lemma invariant_step vs σ l σ' :
  invariant s0 vs σ →
  step σ l σ' →
  invariant s0 (vs ++ match l with Some v => [v] | None => [] end) σ'.
Proof.
  intros Hinv Hstep.
  destruct Hstep as [σ t Hpc Hfree|σ t Hpc|σ t tmp Hpc|σ t Hpc|σ t v Hpc].
  - (* Lock *)
    rewrite app_nil_r. destruct Hinv as [Hvs Hst]. split; [done|].
    cbv zeta in *. rewrite Hfree in Hst. destruct Hst as [Hq Hc].
    simpl. exists t. apply holder_ok_move; [by intros|done].
  - (* load *)
    rewrite app_nil_r.
    destruct (invariant_holder vs σ t Hinv) as [Hl [Hidle Hok]];
      [by rewrite Hpc|].
    rewrite Hpc in Hok. destruct Hinv as [Hvs _]. split; [done|].
    cbv zeta. simpl. rewrite Hl. exists t. by apply holder_ok_move.
  - (* store *)
    rewrite app_nil_r.
    destruct (invariant_holder vs σ t Hinv) as [Hl [Hidle Hok]];
      [by rewrite Hpc|].
    rewrite Hpc in Hok. destruct Hok as [Hc ->].
    destruct Hinv as [Hvs _]. split; [done|].
    cbv zeta. simpl. rewrite Hl. exists t. by apply holder_ok_move.
  - (* return icmpSequence *)
    rewrite app_nil_r.
    destruct (invariant_holder vs σ t Hinv) as [Hl [Hidle Hok]];
      [by rewrite Hpc|].
    rewrite Hpc in Hok. destruct Hinv as [Hvs _]. split; [done|].
    cbv zeta. simpl. rewrite Hl. exists t. by apply holder_ok_move.
  - (* Unlock *)
    destruct (invariant_holder vs σ t Hinv) as [Hl [Hidle Hok]];
      [by rewrite Hpc|].
    rewrite Hpc in Hok. destruct Hok as [Hc ->].
    destruct Hinv as [Hvs _].
    assert (uint16_incr ((s0 + Z.of_nat (length vs)) mod 65536)
            = ticket s0 (length vs)) as Hticket.
    { rewrite uint16_incr_mod. done. }
    split.
    + rewrite length_app, Nat.add_1_r, seq_S, fmap_app, <- Hvs.
      simpl. by rewrite Hticket.
    + cbv zeta. unfold quiescent. cbn [move pcs counter locked]. split.
      * intros t'. destruct (decide (t' = t)) as [->|Hne].
        -- by rewrite fn_lookup_insert.
        -- rewrite fn_lookup_insert_ne by done. by apply Hidle.
      * rewrite Hc, Hticket, length_app. unfold ticket.
        cbn [length]. f_equal. lia.
Qed.

Lemma invariant_run vs σ : run (init s0) vs σ → invariant s0 vs σ.
Proof.
  intros Hrun. remember (init s0) as σ0 eqn:E.
  induction Hrun as [σ|σ vs σ' l σ'' Hrun IH Hstep]; subst.
  - apply invariant_init.
  - eapply invariant_step; [by apply IH|done].
Qed.

End ConcurrentFacts.

(** The schedules of [exec] are runs. *)
Lemma exec_step_sound σ t l σ' :
  Concurrent.exec_step σ t = Some (l, σ') → Concurrent.step σ l σ'.
Proof.
  unfold Concurrent.exec_step.
  destruct (Concurrent.pcs σ t) eqn:Hpc.
  - destruct (Concurrent.locked σ) eqn:Hl; [done|].
    intros [= <- <-]. by apply (Concurrent.step_Lock σ t).
  - intros [= <- <-]. by apply (Concurrent.step_load σ t).
  - intros [= <- <-]. by apply (Concurrent.step_store σ t).
  - intros [= <- <-]. by apply (Concurrent.step_result σ t).
  - intros [= <- <-]. by apply (Concurrent.step_Unlock σ t).
Qed.

Lemma run_cons σ l σ1 vs σ2 :
  Concurrent.step σ l σ1 →
  Concurrent.run σ1 vs σ2 →
  Concurrent.run σ (match l with Some v => [v] | None => [] end ++ vs) σ2.
Proof.
  intros Hstep Hrun. induction Hrun as [σ1|σ1 vs σ2 l' σ3 Hrun IH Hstep'].
  - rewrite app_nil_r.
    rewrite <- (app_nil_l (match l with Some v => [v] | None => [] end)).
    eapply Concurrent.run_step; [apply Concurrent.run_nil|done].
  - rewrite app_assoc. eapply Concurrent.run_step; [by apply IH|done].
Qed.

Lemma exec_sound sched σ :
  Concurrent.run σ (Concurrent.exec sched σ).1 (Concurrent.exec sched σ).2.
Proof.
  revert σ. induction sched as [|t sched IH]; intros σ; simpl.
  - apply Concurrent.run_nil.
  - destruct (Concurrent.exec_step σ t) as [[l σ']|] eqn:Hs; [|apply IH].
    specialize (IH σ'). destruct (Concurrent.exec sched σ') as [vs σ''].
    cbn [fst snd] in *. eapply run_cons; [|done].
    by apply (exec_step_sound σ t).
Qed.

Lemma ticket_window (s : Z) (j k : nat) :
  Z.of_nat j ≤ Z.of_nat k < Z.of_nat j + 65536 →
  Concurrent.ticket s j = Concurrent.ticket s k → j = k.
Proof.
  unfold Concurrent.ticket. intros Hjk E.
  pose proof (Z.div_mod (s + Z.of_nat j + 1) 65536 ltac:(lia)) as Dj.
  pose proof (Z.div_mod (s + Z.of_nat k + 1) 65536 ltac:(lia)) as Dk.
  rewrite E in Dj. lia.
Qed.

(** C6. A call of [getICMPSequence] sets the counter to its value plus
    one modulo 65536 and returns the new value; so up to 65536 calls one
    after the other return pairwise distinct values, and a call at 65535
    returns 0. When goroutines call it concurrently, their statements
    interleaved in any way, the [k]-th value returned is the start value
    plus [k + 1] modulo 65536: no increment is lost (at rest the counter
    is the start value plus the number of calls) and no value is
    returned twice within 65536 successive calls. *)
Theorem C6_sequence_numbers :
  (∀ st,
     (getICMPSequence st).1 = (icmpSequence st + 1) mod 65536
     ∧ icmpSequence (getICMPSequence st).2 = (getICMPSequence st).1)
  ∧ (∀ n st, Z.of_nat n ≤ 65536 → NoDup (sequential_calls n st).1)
  ∧ (∀ st, icmpSequence st = 65535 → (getICMPSequence st).1 = 0)
  ∧ (∀ s0 vs σ,
       0 ≤ s0 < 65536 →
       Concurrent.run (Concurrent.init s0) vs σ →
       (∀ k v, vs !! k = Some v → v = (s0 + Z.of_nat k + 1) mod 65536)
       ∧ (∀ j k v,
            vs !! j = Some v → vs !! k = Some v →
            Z.of_nat j ≤ Z.of_nat k < Z.of_nat j + 65536 → j = k)
       ∧ (Z.of_nat (length vs) ≤ 65536 → NoDup vs)
       ∧ (Concurrent.quiescent σ →
          Concurrent.counter σ = (s0 + Z.of_nat (length vs)) mod 65536)).
Proof.
  split_and!.
  - done.
  - intros n st Hn. rewrite sequential_calls_tickets. by apply tickets_NoDup.
  - intros st Hst. simpl. by rewrite Hst.
  - intros s0 vs σ Hs0 Hrun.
    destruct (invariant_run s0 Hs0 vs σ Hrun) as [Hvs Hst].
    assert (∀ k v, vs !! k = Some v → v = Concurrent.ticket s0 k) as Hk.
    { intros k v. rewrite Hvs, list_lookup_fmap.
      intros [i [Hi ->]]%fmap_Some. apply lookup_seq in Hi as [-> _]. done. }
    split_and!.
    + exact Hk.
    + intros j k v Hj%Hk Hkv%Hk Hwin. apply (ticket_window s0); congruence.
    + intros Hlen. rewrite Hvs. by apply tickets_NoDup.
    + intros Hq. cbv zeta in Hst. destruct (Concurrent.locked σ).
      * destruct Hst as [t [_ Hpc]]. by rewrite Hq in Hpc.
      * by destruct Hst.
Qed.

Lemma C6_witness :
  NoDup (sequential_calls 3 Demo.st0).1
  ∧ NoDup (Concurrent.exec [0; 1; 0; 0; 1; 0; 0; 1; 1; 1; 1; 1]%nat
             (Concurrent.init 65535)).1.
Proof.
  destruct C6_sequence_numbers as (_ & Hseq & _ & Hconc). split.
  - apply Hseq. by_running.
  - eapply (Hconc 65535); [split; by_running|apply exec_sound|by_running].
Defined.

(** * Further properties of the probe *)

(** ** Every call of ProbeICMP takes one of the ways of [ProbeCase] *)

Lemma ProbeICMP_case (w : World) (st : State) : ProbeCase w st (ProbeICMP w st).
Proof.
  destruct (chooseProtocol w) as [ip|] eqn:Hres.
  2:{ assert (ProbeICMP w st
              = Returns false
                  (extend [EvResolve;
                           EvLog level_Warn "Error resolving address"] st))
        as -> by (unfold ProbeICMP; rewrite Hres; by norm_state).
      by constructor. }
  destruct (ListenPacket w (network_of ip) (address_of ip)) eqn:Hsock.
  2:{ pose proof (case_socket w st ip Hres Hsock) as Hc.
      match type of Hc with
      | ProbeCase _ _ ?o => assert (ProbeICMP w st = o) as -> by probe_aborts
      end. exact Hc. }
  destruct (Marshal w (request_of w st ip)) as [wb0|] eqn:Hreq.
  2:{ pose proof (case_request w st ip Hres Hsock Hreq) as Hc.
      match type of Hc with
      | ProbeCase _ _ ?o => assert (ProbeICMP w st = o) as -> by probe_aborts
      end. exact Hc. }
  destruct (WriteTo w wb0 ip) eqn:Hwr.
  2:{ pose proof (case_write w st ip wb0 Hres Hsock Hreq Hwr) as Hc.
      match type of Hc with
      | ProbeCase _ _ ?o => assert (ProbeICMP w st = o) as -> by probe_aborts
      end. exact Hc. }
  destruct (Marshal w (reply_of w st ip)) as [wb|] eqn:Hrep.
  2:{ pose proof (case_reply w st ip wb0 Hres Hsock Hreq Hwr Hrep) as Hc.
      match type of Hc with
      | ProbeCase _ _ ?o => assert (ProbeICMP w st = o) as -> by probe_aborts
      end. exact Hc. }
  assert (Sends w st ip wb0 wb) as HS by (by split).
  destruct (SetReadDeadline w (probe_deadline w)) eqn:Hdl.
  - assert (Listens w st ip wb0 wb) as HL by (by split).
    rewrite (ProbeICMP_listens w st ip wb0 wb HL). by econstructor.
  - rewrite (ProbeICMP_sends w st ip wb0 wb HS). cbn zeta.
    rewrite Hdl. cbn [negb defer_Close].
    pose proof (case_deadline w st ip wb0 wb HS Hdl) as Hc.
    match type of Hc with
    | ProbeCase _ _ (Returns _ ?s) =>
        match goal with
        | |- ProbeCase _ _ (Returns _ ?s') => replace s' with s; [exact Hc|]
        end
    end.
    f_equal. unfold send_events. by norm_state.
Qed.

Lemma new_events_extend b es st : new_events st (Returns b (extend es st)) = es.
Proof. unfold new_events. simpl. by rewrite drop_app_length. Qed.

Lemma new_events_closed b es st :
  new_events st (Returns b (socket_Close (extend es (in_flight st))))
  = es ++ [EvClose].
Proof.
  unfold new_events. simpl. by rewrite <- app_assoc, drop_app_length.
Qed.

Lemma new_events_listening r es st :
  new_events st (defer_Close (outcome_of r (extend es (in_flight st))))
  = es ++ match r with Some _ => [EvClose] | None => [] end.
Proof.
  unfold new_events. rewrite trace_defer_Close. simpl.
  by rewrite <- app_assoc, drop_app_length.
Qed.

(** The trace of a probe is the trace it starts with and its new events. *)
Lemma trace_new_events w st :
  trace (final_state (ProbeICMP w st))
  = trace st ++ new_events st (ProbeICMP w st).
Proof.
  destruct (ProbeICMP_case w st).
  all: rewrite ?new_events_extend, ?new_events_closed, ?new_events_listening.
  all: rewrite ?trace_defer_Close; simpl; by rewrite <- ?app_assoc.
Qed.

(** The loop only reads and logs; it reads at most once more than there
    are arrivals; when it returns, its last events are those of the match
    or of the timeout. *)
Lemma listen_events_shape w ip rt wb rdl cap q :
  Forall (λ e, e = EvReadFrom ∨ is_log e = true)
         (listen_events w ip rt wb rdl cap q).
Proof.
  assert (∀ es : list Event,
            forallb (λ e, bool_decide (e = EvReadFrom) || is_log e) es = true →
            Forall (λ e, e = EvReadFrom ∨ is_log e = true) es) as Hrun.
  { intros es Hes. apply Forall_forall. intros e He.
    rewrite forallb_forall in Hes. specialize (Hes e He).
    apply orb_true_iff in Hes as [Hes|Hes]; [left|by right].
    by apply bool_decide_eq_true in Hes. }
  induction q as [|[t a] q IH]; simpl.
  - destruct rdl; by apply Hrun.
  - destruct (verdict _ _ _ _ _ _ _).
    + by apply Hrun.
    + apply Forall_app. split; [|done]. destruct a; by apply Hrun.
    + by apply Hrun.
Qed.

Lemma listen_events_reads w ip rt wb rdl cap q :
  (length (filter (λ e, is_read e = true)
                  (listen_events w ip rt wb rdl cap q)) ≤ length q + 1)%nat.
Proof.
  induction q as [|[t a] q IH]; simpl.
  - destruct rdl; cbv; lia.
  - destruct (verdict _ _ _ _ _ _ _).
    + change (length (filter _ ev_timeout)) with 1%nat. lia.
    + rewrite list.filter_app, length_app.
      assert (length (filter (λ e, is_read e = true) (ev_skip a)) = 1%nat)
        as -> by (by destruct a).
      lia.
    + change (length (filter _ ev_match)) with 1%nat. lia.
Qed.

Lemma listen_events_last w ip rt wb rdl cap q b :
  listen_result w ip rt wb rdl cap q = Some b →
  ∃ es, listen_events w ip rt wb rdl cap q
        = es ++ (if b then ev_match else ev_timeout).
Proof.
  induction q as [|[t a] q IH]; simpl.
  - destruct rdl; [|done]. intros [= <-]. by exists [].
  - destruct (verdict _ _ _ _ _ _ _).
    + intros [= <-]. by exists [].
    + intros [es ->]%IH. exists (ev_skip a ++ es). by rewrite app_assoc.
    + intros [= <-]. by exists [].
Qed.

Lemma listen_result_None w ip rt wb rdl cap q :
  listen_result w ip rt wb rdl cap q = None
  ↔ rdl = None ∧ Forall (λ ta, verdict w ip rt wb rdl cap ta = VSkip) q.
Proof.
  induction q as [|ta q IH]; simpl.
  - destruct rdl; split; try done. by intros [[=] _].
  - destruct (verdict _ _ _ _ _ _ ta) eqn:Hv.
    + split; [done|]. intros [_ HF]. inversion HF; congruence.
    + rewrite IH. split; intros [? ?]; split; try done.
      * by constructor.
      * by inversion H0.
    + split; [done|]. intros [_ HF]. inversion HF; congruence.
Qed.

Lemma read_deadline_None (t : Time) : read_deadline t = None ↔ t = zeroTime.
Proof.
  unfold read_deadline, Time_IsZero.
  destruct (Z.eqb_spec t zeroTime); split; done.
Qed.

Lemma Time_Sub_ge (t u : Time) : minDuration ≤ Time_Sub t u.
Proof.
  unfold Time_Sub. cbv zeta.
  destruct (Z.ltb_spec (t - u) minDuration); [lia|].
  destruct (Z.ltb_spec maxDuration (t - u)); [|lia].
  unfold minDuration, maxDuration. lia.
Qed.

(** ** When the probe returns *)

Lemma ProbeCase_blocks w st o :
  ProbeCase w st o →
  result o = None →
  ∃ ip wb0 wb,
    Listens w st ip wb0 wb
    ∧ probe_deadline w = zeroTime
    ∧ Forall (passed_over w ip wb) (incoming w).
Proof.
  intros [| | | | | |ip wb0 wb HL]; try done.
  rewrite result_defer_Close, listen_result_None.
  intros [Hrdl Hall]. exists ip, wb0, wb.
  split; [done|]. split; [by apply read_deadline_None|done].
Qed.

(** X1. With a clock that reads later than the largest Duration after the
    zero time, as every clock of today does, a call of the probe always
    returns, whatever the context, the network and the failures: the
    read deadline it computes is never the zero time, which would stand
    for no deadline. *)
Theorem X1_probe_returns (w : World) (st : State) :
  - minDuration < Now w 0 →
  probe_deadline w ≠ zeroTime
  ∧ ∃ b st', ProbeICMP w st = Returns b st'.
Proof.
  intros Hclock.
  assert (probe_deadline w ≠ zeroTime) as Hd.
  { unfold probe_deadline, Time_Add, zeroTime.
    pose proof (Time_Sub_ge (Deadline w).1 (Now w 1)). lia. }
  split; [done|].
  destruct (ProbeICMP w st) as [b st'|st'] eqn:E; [by eauto|].
  destruct (ProbeCase_blocks w st _ (ProbeICMP_case w st)) as (? & ? & ? & _ & ? & _);
    [by rewrite E|done].
Qed.

Lemma X1_witness :
  ∃ b st',
    ProbeICMP (Demo.world Demo.target4 (zeroTime, false) []) Demo.st0
    = Returns b st'.
Proof.
  apply (X1_probe_returns (Demo.world Demo.target4 (zeroTime, false) [])
           Demo.st0).
  by_running.
Defined.

(** X2. A call of the probe fails to return in one case only: it got to
    its receive loop, the read deadline it computed is the zero time (no
    deadline for the socket), and every arrival is passed over, so that
    the last read waits for ever. *)
Theorem X2_probe_blocks_iff (w : World) (st : State) :
  result (ProbeICMP w st) = None
  ↔ ∃ ip wb0 wb,
      Listens w st ip wb0 wb
      ∧ probe_deadline w = zeroTime
      ∧ Forall (passed_over w ip wb) (incoming w).
Proof.
  split.
  - apply ProbeCase_blocks, ProbeICMP_case.
  - intros (ip & wb0 & wb & HL & Hd & Hall).
    rewrite (ProbeICMP_result w st ip wb0 wb HL).
    apply listen_result_None. split; [|done].
    by apply read_deadline_None.
Qed.

Lemma X2_witness :
  result
    (ProbeICMP
       {| Deadline := (zeroTime, false);
          Now := λ _, 5;
          chooseProtocol := Some Demo.target4;
          IPAddr_String := Demo.addr_String;
          ListenPacket := λ _ _, true;
          Getpid := 70123;
          Marshal := icmp.Message_Marshal;
          WriteTo := λ _ _, true;
          SetReadDeadline := λ _, true;
          incoming := [(7, ArrPacket [x00] "192.0.2.1")] |}
       Demo.st0)
  = None.
Proof.
  apply X2_probe_blocks_iff.
  exists Demo.target4, (Demo.request Demo.target4), (Demo.reply Demo.target4).
  split; [demo_listens|]. split; [by_running|demo_survives].
Defined.

(** ** What a probe draws and sends *)

(** X3. A probe draws a sequence number exactly when it has opened its
    socket: the counter is then one further (modulo 65536) when the call
    ends, whether it ends in a match, a timeout, a marshal, write or
    deadline error, or never; a probe that fails to resolve or to open
    the socket leaves the counter as it was. *)
Theorem X3_sequence_drawn_with_socket (w : World) (st : State) :
  icmpSequence (final_state (ProbeICMP w st))
  = match chooseProtocol w with
    | Some ip =>
        if ListenPacket w (network_of ip) (address_of ip)
        then uint16_incr (icmpSequence st)
        else icmpSequence st
    | None => icmpSequence st
    end.
Proof.
  destruct (ProbeICMP_case w st)
    as [Hres|ip Hres Hsock|ip Hres Hsock _|ip wb0 Hres Hsock _ _
        |ip wb0 Hres Hsock _ _ _|ip wb0 wb [Hres Hsock _ _ _] _
        |ip wb0 wb [[Hres Hsock _ _ _] _]];
    rewrite Hres, ?Hsock; try done.
  by destruct (listen_result _ _ _ _ _ _ _).
Qed.

(** X4. A probe sends at most one packet; a packet it sends goes to the
    resolved address and is the marshalled echo request. It reads at
    most once more than there are arrivals, and it reads only after the
    whole setup: socket, request, send, marshal of the expected reply
    and read deadline. *)
Theorem X4_one_packet_then_reads (w : World) (st : State) :
  let es := new_events st (ProbeICMP w st) in
  (length (filter (λ e, is_write e = true) es) ≤ 1)%nat
  ∧ (∀ b dst, EvWriteTo b dst ∈ es →
       chooseProtocol w = Some dst
       ∧ Marshal w (request_of w st dst) = Some b)
  ∧ (length (filter (λ e, is_read e = true) es) ≤ length (incoming w) + 1)%nat
  ∧ (EvReadFrom ∈ es →
     ∃ ip wb0 wb rest,
       Listens w st ip wb0 wb ∧ es = setup_events w st ip wb0 ++ rest).
Proof.
  cbv zeta.
  destruct (ProbeICMP_case w st)
    as [Hres|ip Hres Hsock|ip Hres Hsock Hreq|ip wb0 Hres Hsock Hreq Hwr
        |ip wb0 Hres Hsock Hreq Hwr Hrep|ip wb0 wb HS Hdl
        |ip wb0 wb HL].
  1-5: rewrite ?new_events_extend, ?new_events_closed; cbn [app].
  1-5: split_and!;
         [cbv; lia
         |intros b dst Hin;
          repeat (apply elem_of_cons in Hin as [Hin|Hin]; [try done|]);
          try (by apply elem_of_nil in Hin);
          by injection Hin as -> ->
         |cbv; lia
         |intros Hin;
          repeat (apply elem_of_cons in Hin as [Hin|Hin]; [done|]);
          by apply elem_of_nil in Hin].
  - rewrite new_events_closed. unfold send_events. cbn [app].
    destruct HS as [Hres Hsock Hreq Hwr Hrep].
    split_and!;
      [cbv; lia
      |intros b dst Hin;
       repeat (apply elem_of_cons in Hin as [Hin|Hin]; [try done|]);
       try (by apply elem_of_nil in Hin);
       by injection Hin as -> ->
      |cbv; lia
      |intros Hin;
       repeat (apply elem_of_cons in Hin as [Hin|Hin]; [done|]);
       by apply elem_of_nil in Hin].
  - rewrite new_events_listening.
    pose proof (listen_events_shape w ip (replyType_of ip) wb
                  (listening_deadline w) 1500 (incoming w)) as Hshape.
    pose proof (listen_events_reads w ip (replyType_of ip) wb
                  (listening_deadline w) 1500 (incoming w)) as Hreads.
    set (les := listen_events w ip (replyType_of ip) wb
                  (listening_deadline w) 1500 (incoming w)) in *.
    set (cl := match listen_result w ip (replyType_of ip) wb
                       (listening_deadline w) 1500 (incoming w) with
               | Some _ => [EvClose]
               | None => []
               end).
    assert (filter (λ e, is_write e = true) les = []) as Hnw.
    { clearbody les. clear Hreads.
      induction Hshape as [|e les [->|He] _ IH]; [done| |].
      - by rewrite filter_cons_False.
      - rewrite filter_cons_False; [done|]. by destruct e. }
    assert (filter (λ e, is_write e = true) cl = []
            ∧ filter (λ e, is_read e = true) cl = []) as [Hcw Hcr]
      by (subst cl; by destruct (listen_result _ _ _ _ _ _ _)).
    destruct HL as [[Hres Hsock Hreq Hwr Hrep] Hdl].
    split_and!.
    + rewrite <- !app_assoc, !list.filter_app, !length_app, Hnw, Hcw.
      change (length (filter _ (setup_events w st ip wb0))) with 1%nat.
      simpl. lia.
    + intros b dst Hin.
      rewrite <- app_assoc in Hin.
      apply elem_of_app in Hin as [Hin|Hin].
      * unfold setup_events, send_events in Hin. cbn [app] in Hin.
        repeat (apply elem_of_cons in Hin as [Hin|Hin]; [try done|]);
          try (by apply elem_of_nil in Hin).
        by injection Hin as -> ->.
      * assert (EvWriteTo b dst ∈ filter (λ e, is_write e = true) (les ++ cl))
          as Hf by (by apply list_elem_of_filter).
        rewrite list.filter_app, Hnw, Hcw in Hf. by apply elem_of_nil in Hf.
    + rewrite <- !app_assoc, !list.filter_app, !length_app, Hcr,
        setup_events_reads. simpl. lia.
    + intros _. exists ip, wb0, wb. eexists. split; [by repeat split|].
      by rewrite <- app_assoc.
Qed.

Lemma sequence_with_socket w st ip :
  chooseProtocol w = Some ip →
  ListenPacket w (network_of ip) (address_of ip) = true →
  icmpSequence (final_state (ProbeICMP w st)) = uint16_incr (icmpSequence st).
Proof.
  intros Hres Hsock.
  destruct (ProbeICMP_case w st)
    as [Hres'|ip' Hres' Hsock'|ip' Hres' _ _|ip' wb0 Hres' _ _ _
        |ip' wb0 Hres' _ _ _ _|ip' wb0 wb [Hres' _ _ _ _] _
        |ip' wb0 wb [[Hres' _ _ _ _] _]];
    try done; try congruence.
  by destruct (listen_result _ _ _ _ _ _ _).
Qed.

Lemma land_0xffff (x : Z) : Z.land x 0xffff = x mod 65536.
Proof. change 0xffff with (Z.ones 16). by rewrite Z.land_ones. Qed.

Lemma uint16_incr_range (x : Z) : 0 ≤ uint16_incr x < 65536.
Proof. unfold uint16_incr. apply Z.mod_pos_bound. lia. Qed.

(** X5. Every message a probe marshals is an echo message for the
    resolved address, the request or the reply that differs from it in
    the type only: code 0, the fixed payload, as identifier the process
    id modulo 65536 and as sequence number the value the counter has
    when the call ends; both numbers fit in 16 bits. *)
Theorem X5_marshalled_messages (w : World) (st : State) (m : Message) :
  EvMarshal m ∈ new_events st (ProbeICMP w st) →
  (∃ ip, chooseProtocol w = Some ip
         ∧ (Type_ m = requestType_of ip ∨ Type_ m = replyType_of ip))
  ∧ Code m = 0
  ∧ Data (Body m) = payload
  ∧ ID (Body m) = Getpid w mod 65536
  ∧ Seq (Body m) = icmpSequence (final_state (ProbeICMP w st))
  ∧ 0 ≤ Seq (Body m) < 65536.
Proof.
  intros Hin.
  assert (∃ ip, chooseProtocol w = Some ip
                ∧ ListenPacket w (network_of ip) (address_of ip) = true
                ∧ (m = request_of w st ip ∨ m = reply_of w st ip))
    as (ip & Hres & Hsock & Hm).
  { destruct (ProbeICMP_case w st)
      as [Hres|ip Hres Hsock|ip Hres Hsock Hreq|ip wb0 Hres Hsock Hreq Hwr
          |ip wb0 Hres Hsock Hreq Hwr Hrep|ip wb0 wb HS Hdl
          |ip wb0 wb HL].
    1-5: rewrite ?new_events_extend, ?new_events_closed in Hin;
         cbn [app] in Hin.
    1-5: repeat (apply elem_of_cons in Hin as [Hin|Hin];
                 [try done; injection Hin as ->; by eauto 6|]);
         by apply elem_of_nil in Hin.
    - rewrite new_events_closed in Hin. unfold send_events in Hin.
      cbn [app] in Hin. destruct HS as [Hres Hsock _ _ _].
      repeat (apply elem_of_cons in Hin as [Hin|Hin];
              [try done; injection Hin as ->; by eauto 6|]);
        by apply elem_of_nil in Hin.
    - rewrite new_events_listening, <- app_assoc in Hin.
      destruct HL as [[Hres Hsock _ _ _] _].
      apply elem_of_app in Hin as [Hin|Hin].
      + unfold setup_events, send_events in Hin. cbn [app] in Hin.
        repeat (apply elem_of_cons in Hin as [Hin|Hin];
                [try done; injection Hin as ->; by eauto 6|]);
          by apply elem_of_nil in Hin.
      + apply elem_of_app in Hin as [Hin|Hin].
        * pose proof (listen_events_shape w ip (replyType_of ip) wb
                        (listening_deadline w) 1500 (incoming w)) as Hshape.
          rewrite Forall_forall in Hshape.
          apply list_elem_of_In in Hin.
          by destruct (Hshape _ Hin).
        * destruct (listen_result _ _ _ _ _ _ _);
            [apply elem_of_cons in Hin as [Hin|Hin]; [done|]|];
            by apply elem_of_nil in Hin. }
  rewrite (sequence_with_socket w st ip Hres Hsock).
  pose proof (uint16_incr_range (icmpSequence st)).
  split; [exists ip; split; [done|]; by destruct Hm as [->| ->]; [left|right]|].
  destruct Hm as [->| ->]; cbn [request_of reply_of set_Type Code Body Data ID Seq];
    by rewrite land_0xffff.
Qed.

Lemma X5_witness :
  Seq (Body (request_of (Demo.world Demo.target4 Demo.in_2s []) Demo.st0
               Demo.target4))
  = 7.
Proof.
  destruct (X5_marshalled_messages
              (Demo.world Demo.target4 Demo.in_2s []) Demo.st0
              (request_of (Demo.world Demo.target4 Demo.in_2s []) Demo.st0
                 Demo.target4))
    as (_ & _ & _ & _ & Hseq & _).
  - apply (list_elem_of_lookup_2 _ 4%nat). by_running.
  - rewrite Hseq. by_running.
Defined.

(** ** What the last log line says *)

(** X6. When the probe returns, the outcome can be read off its last log
    line, which is its last event but for the close of the socket: after
    [true] it is the line of the matching reply, at level info; after
    [false] it is a line at level warn or error. No failure is silent. *)
Theorem X6_last_log_line (w : World) (st : State) (b : bool) (st' : State) :
  ProbeICMP w st = Returns b st' →
  ∃ es lvl msg tl,
    trace st' = trace st ++ es ++ EvLog lvl msg :: tl
    ∧ (tl = [] ∨ tl = [EvClose])
    ∧ (b = true →
       lvl = level_Info ∧ msg = "Found matching reply packet"%string)
    ∧ (b = false → lvl = level_Warn ∨ lvl = level_Error).
Proof.
  intros Hret.
  pose proof (trace_new_events w st) as Htr. rewrite Hret in Htr.
  cbn [final_state] in Htr. rewrite Htr. clear Htr.
  destruct (ProbeICMP_case w st)
    as [Hres|ip Hres Hsock|ip Hres Hsock Hreq|ip wb0 Hres Hsock Hreq Hwr
        |ip wb0 Hres Hsock Hreq Hwr Hrep|ip wb0 wb HS Hdl
        |ip wb0 wb HL].
  1-6: injection Hret as <- <-;
       rewrite ?new_events_extend, ?new_events_closed.
  - exists [EvResolve], level_Warn, "Error resolving address"%string, [].
    split_and!; [done|by left|done|by left].
  - eexists [_; _; _], level_Error, _, []. cbn [app].
    split_and!; [done|by left|done|by right].
  - eexists [_; _; _; _; _], level_Error, _, [EvClose]. cbn [app].
    split_and!; [done|by right|done|by right].
  - eexists [_; _; _; _; _; _; _], level_Warn, _, [EvClose]. cbn [app].
    split_and!; [done|by right|done|by left].
  - eexists [_; _; _; _; _; _; _; _], level_Error, _, [EvClose]. cbn [app].
    split_and!; [done|by right|done|by right].
  - exists (send_events w st ip wb0), level_Error,
      "Error setting socket deadline"%string, [EvClose].
    split_and!; [done|by right|done|by right].
  - destruct (listen_result w ip (replyType_of ip) wb (listening_deadline w)
                1500 (incoming w)) as [r|] eqn:Hr; [|done].
    destruct (listen_events_last _ _ _ _ _ _ _ _ Hr) as [es Hes].
    rewrite Hes in Hret. cbn [outcome_of defer_Close] in Hret.
    injection Hret as -> <-. rewrite new_events_closed.
    destruct b.
    + exists (setup_events w st ip wb0 ++ es ++ [EvReadFrom]),
        level_Info, "Found matching reply packet"%string, [EvClose].
      split_and!; [|by right|done|done].
      unfold setup_events, send_events, ev_match. cbn [app].
      f_equal. do 10 f_equal. by rewrite <- !app_assoc.
    + exists (setup_events w st ip wb0 ++ es ++ [EvReadFrom]),
        level_Warn, "Timeout reading from socket"%string, [EvClose].
      split_and!; [|by right|done|by left].
      unfold setup_events, send_events, ev_timeout. cbn [app].
      f_equal. do 10 f_equal. by rewrite <- !app_assoc.
Qed.

Lemma X6_witness :
  ∃ es lvl msg tl,
    trace
      (final_state
         (ProbeICMP (Demo.world Demo.target4 Demo.in_2s []) Demo.st0))
    = trace Demo.st0 ++ es ++ EvLog lvl msg :: tl
    ∧ (lvl = level_Warn ∨ lvl = level_Error).
Proof.
  destruct (X6_last_log_line
              (Demo.world Demo.target4 Demo.in_2s []) Demo.st0 false
              (final_state
                 (ProbeICMP (Demo.world Demo.target4 Demo.in_2s []) Demo.st0)))
    as (es & lvl & msg & tl & Htr & _ & _ & Hfalse); [by_running|].
  exists es, lvl, msg, tl. split; [exact Htr|by apply Hfalse].
Defined.

(** ** The arrival that decides, and those that do not *)

Lemma listen_cut w ip rt wb rdl cap pre ta post :
  Forall (λ x, verdict w ip rt wb rdl cap x = VSkip) pre →
  verdict w ip rt wb rdl cap ta ≠ VSkip →
  listen_result w ip rt wb rdl cap (pre ++ ta :: post)
  = listen_result w ip rt wb rdl cap (pre ++ [ta])
  ∧ listen_events w ip rt wb rdl cap (pre ++ ta :: post)
    = listen_events w ip rt wb rdl cap (pre ++ [ta])
  ∧ listen_result w ip rt wb rdl cap (pre ++ [ta]) ≠ None
  ∧ length (filter (λ e, is_read e = true)
                   (listen_events w ip rt wb rdl cap (pre ++ [ta])))
    = (length pre + 1)%nat.
Proof.
  intros Hpre Hta.
  destruct (listen_skip_prefix w ip rt wb rdl cap pre (ta :: post) Hpre)
    as [-> ->].
  destruct (listen_skip_prefix w ip rt wb rdl cap pre [ta] Hpre) as [-> ->].
  rewrite list.filter_app, length_app, skipped_events_reads.
  cbn [listen_result listen_events].
  destruct (verdict w ip rt wb rdl cap ta); done.
Qed.

(** X7. The first arrival that the loop does not pass over, a match or a
    timeout, ends the call: the probe returns, it has read once for each
    arrival up to that one, and what would arrive later plays no part,
    neither in the answer nor in the state the call leaves. *)
Theorem X7_decisive_arrival_ends
    (w : World) (st : State) (ip : IPAddr) (wb0 wb : bytes)
    (pre : list (Time * Arrival)) (ta : Time * Arrival)
    (post : list (Time * Arrival)) :
  Listens w st ip wb0 wb →
  incoming w = pre ++ ta :: post →
  Forall (passed_over w ip wb) pre →
  ¬ passed_over w ip wb ta →
  ProbeICMP w st = ProbeICMP (with_incoming w (pre ++ [ta])) st
  ∧ result (ProbeICMP w st) ≠ None
  ∧ reads_issued (final_state (ProbeICMP w st))
    = (reads_issued st + length pre + 1)%nat.
Proof.
  intros HL Hq Hpre Hta.
  pose proof (Listens_with_incoming w (pre ++ [ta]) st ip wb0 wb HL) as HL'.
  destruct (listen_cut w ip (replyType_of ip) wb (listening_deadline w) 1500
              pre ta post Hpre Hta) as (Ha & He & Hsome & Hreads).
  rewrite (ProbeICMP_listens w st ip wb0 wb HL).
  rewrite (ProbeICMP_listens _ st ip wb0 wb HL').
  cbn zeta.
  change (listening_deadline (with_incoming w (pre ++ [ta])))
    with (listening_deadline w).
  change (incoming (with_incoming w (pre ++ [ta]))) with (pre ++ [ta]).
  change (setup_events (with_incoming w (pre ++ [ta])) st ip wb0)
    with (setup_events w st ip wb0).
  rewrite !listen_with_incoming, Hq, Ha.
  change (listen_events (with_incoming w (pre ++ [ta])))
    with (listen_events w).
  rewrite He. split; [done|]. split.
  - by rewrite result_defer_Close.
  - unfold reads_issued. rewrite trace_defer_Close. cbn [trace extend in_flight].
    rewrite !list.filter_app, !length_app, setup_events_reads, Hreads.
    destruct (listen_result _ _ _ _ _ _ (pre ++ [ta])); [|done].
    change (length (filter _ [EvClose])) with 0%nat. lia.
Qed.

Lemma X7_witness :
  ProbeICMP
    (Demo.world Demo.target4 Demo.in_2s
       [(Demo.T0 + Demo.second, ArrError Demo.other_error);
        (Demo.T0 + Demo.second,
         ArrPacket (Demo.reply Demo.target4) "192.0.2.1");
        (Demo.T0 + Demo.second, ArrError errTimeout)])
    Demo.st0
  = ProbeICMP
      (Demo.world Demo.target4 Demo.in_2s
         [(Demo.T0 + Demo.second, ArrError Demo.other_error);
          (Demo.T0 + Demo.second,
           ArrPacket (Demo.reply Demo.target4) "192.0.2.1")])
      Demo.st0.
Proof.
  apply (X7_decisive_arrival_ends
           (Demo.world Demo.target4 Demo.in_2s
              [(Demo.T0 + Demo.second, ArrError Demo.other_error);
               (Demo.T0 + Demo.second,
                ArrPacket (Demo.reply Demo.target4) "192.0.2.1");
               (Demo.T0 + Demo.second, ArrError errTimeout)])
           Demo.st0 Demo.target4
           (Demo.request Demo.target4) (Demo.reply Demo.target4)
           [(Demo.T0 + Demo.second, ArrError Demo.other_error)]
           (Demo.T0 + Demo.second,
            ArrPacket (Demo.reply Demo.target4) "192.0.2.1")
           [(Demo.T0 + Demo.second, ArrError errTimeout)]).
  - demo_listens.
  - reflexivity.
  - demo_survives.
  - by_running.
Defined.

(** X8. A packet received from the target whose bytes as compared (for
    IPv6 with the checksum cleared) are not the expected reply does not
    end the call and is not logged: the loop issues the next read, and
    the probe answers what it answers without that packet. *)
Theorem X8_other_bytes_discarded
    (w : World) (st : State) (ip : IPAddr) (wb0 wb : bytes)
    (pre : list (Time * Arrival)) (t : Time) (data : bytes) (peer : string)
    (post : list (Time * Arrival)) :
  Listens w st ip wb0 wb →
  incoming w = pre ++ (t, ArrPacket data peer) :: post →
  Forall (passed_over w ip wb) pre →
  in_time w t →
  compared (replyType_of ip) (take 1500 data) ≠ wb →
  (∃ rest,
     trace (final_state (ProbeICMP w st))
     = trace st ++ setup_events w st ip wb0 ++ skipped_events pre
       ++ [EvReadFrom; EvReadFrom] ++ rest)
  ∧ result (ProbeICMP w st)
    = result (ProbeICMP (with_incoming w (pre ++ post)) st).
Proof.
  intros HL Hq Hpre Ht Hb.
  assert (passed_over w ip wb (t, ArrPacket data peer)) as Hskip
    by (by apply verdict_other_bytes).
  split; [|by eapply ProbeICMP_pass_over].
  destruct (ProbeICMP_trace_skip w st ip wb0 wb pre _ HL Hq Hpre) as [_ Htr].
  rewrite Htr. cbn [listen_events]. rewrite Hskip. cbn [ev_skip snd].
  destruct (listen_events_head w ip (replyType_of ip) wb
              (listening_deadline w) 1500 post) as [rest ->].
  eexists. rewrite <- !app_assoc. simpl. reflexivity.
Qed.

Lemma X8_witness :
  result
    (ProbeICMP
       (Demo.world Demo.target4 Demo.in_2s
          [(Demo.T0 + Demo.second,
            ArrPacket (Demo.request Demo.target4) "192.0.2.1");
           (Demo.T0 + Demo.second,
            ArrPacket (Demo.reply Demo.target4) "192.0.2.1")])
       Demo.st0)
  = Some true.
Proof.
  destruct (X8_other_bytes_discarded
              (Demo.world Demo.target4 Demo.in_2s
                 [(Demo.T0 + Demo.second,
                   ArrPacket (Demo.request Demo.target4) "192.0.2.1");
                  (Demo.T0 + Demo.second,
                   ArrPacket (Demo.reply Demo.target4) "192.0.2.1")])
              Demo.st0 Demo.target4
              (Demo.request Demo.target4) (Demo.reply Demo.target4)
              [] (Demo.T0 + Demo.second) (Demo.request Demo.target4)
              "192.0.2.1"
              [(Demo.T0 + Demo.second,
                ArrPacket (Demo.reply Demo.target4) "192.0.2.1")])
    as [_ ->];
    [demo_listens|reflexivity|demo_survives|by_running|by_running|by_running].
Defined.

Lemma clear_checksum_lookup (b : bytes) (i : nat) :
  i ≠ 2%nat → i ≠ 3%nat → clear_checksum b !! i = b !! i.
Proof.
  intros H2 H3. unfold clear_checksum.
  by rewrite !list_lookup_insert_ne.
Qed.

(** X9. For an IPv4 probe every byte read counts, the checksum at
    offsets 2 and 3 included: a packet that differs from the expected
    reply at any one offset is passed over. For an IPv6 probe the same
    holds at every offset other than 2 and 3. *)
Theorem X9_every_other_byte_counts
    (w : World) (st : State) (ip : IPAddr) (wb0 wb : bytes)
    (pre : list (Time * Arrival)) (t : Time) (data : bytes) (peer : string)
    (post : list (Time * Arrival)) (i : nat) :
  Listens w st ip wb0 wb →
  incoming w = pre ++ (t, ArrPacket data peer) :: post →
  in_time w t →
  take 1500 data !! i ≠ wb !! i →
  (IP_To4 (IP ip) = None → i ≠ 2%nat ∧ i ≠ 3%nat) →
  result (ProbeICMP w st)
  = result (ProbeICMP (with_incoming w (pre ++ post)) st).
Proof.
  intros HL Hq Ht Hi H6.
  eapply ProbeICMP_pass_over; [done|done|].
  apply verdict_other_bytes; [done|].
  intros E. apply Hi. rewrite <- E.
  unfold compared, replyType_of.
  destruct (IP_To4 (IP ip)) eqn:E4.
  - by rewrite bool_decide_false.
  - rewrite bool_decide_true by done.
    destruct (H6 eq_refl). by rewrite clear_checksum_lookup.
Qed.

Lemma X9_witness :
  result
    (ProbeICMP
       (Demo.world Demo.target4 Demo.in_2s
          [(Demo.T0 + Demo.second,
            ArrPacket (<[2%nat:=x00]> (Demo.reply Demo.target4))
                      "192.0.2.1")])
       Demo.st0)
  = Some false.
Proof.
  rewrite (X9_every_other_byte_counts
             (Demo.world Demo.target4 Demo.in_2s
                [(Demo.T0 + Demo.second,
                  ArrPacket (<[2%nat:=x00]> (Demo.reply Demo.target4))
                            "192.0.2.1")])
             Demo.st0 Demo.target4
             (Demo.request Demo.target4) (Demo.reply Demo.target4)
             [] (Demo.T0 + Demo.second)
             (<[2%nat:=x00]> (Demo.reply Demo.target4)) "192.0.2.1" []
             2%nat);
    [by_running|demo_listens|reflexivity|by_running|by_running|].
  intros H. by vm_compute in H.
Defined.

(** ** The read deadline *)

(** X10. When the read deadline cannot be set, the probe returns [false]
    with the request already sent: it logs the error, issues no read and
    closes its socket. *)
Theorem X10_deadline_error_aborts
    (w : World) (st : State) (ip : IPAddr) (wb0 wb : bytes) :
  Sends w st ip wb0 wb →
  SetReadDeadline w (probe_deadline w) = false →
  let st' :=
    socket_Close
      (extend (send_events w st ip wb0
               ++ [EvLog level_Error "Error setting socket deadline"])
              (in_flight st)) in
  ProbeICMP w st = Returns false st'
  ∧ packets_sent st' = (packets_sent st + 1)%nat
  ∧ reads_issued st' = reads_issued st
  ∧ open_sockets st' = open_sockets st.
Proof.
  intros HS Hdl st'. split_and!.
  - rewrite (ProbeICMP_sends w st ip wb0 wb HS). cbn zeta.
    rewrite Hdl. cbn [negb defer_Close]. subst st'. do 2 f_equal.
    unfold send_events. by norm_state.
  - subst st'. unfold packets_sent. simpl.
    rewrite !list.filter_app, !length_app.
    change (length (filter _ [EvClose])) with 0%nat.
    match goal with
    | |- context [length (filter ?P (?e :: ?es))] =>
        change (length (filter P (e :: es))) with 1%nat
    end. lia.
  - subst st'. unfold reads_issued. simpl.
    rewrite !list.filter_app, !length_app.
    change (length (filter _ [EvClose])) with 0%nat.
    match goal with
    | |- context [length (filter ?P (?e :: ?es))] =>
        change (length (filter P (e :: es))) with 0%nat
    end. lia.
  - done.
Qed.

Lemma X10_witness :
  result
    (ProbeICMP
       {| Deadline := Demo.in_2s;
          Now := λ k, Demo.T0 + Z.of_nat k;
          chooseProtocol := Some Demo.target4;
          IPAddr_String := Demo.addr_String;
          ListenPacket := λ _ _, true;
          Getpid := 70123;
          Marshal := icmp.Message_Marshal;
          WriteTo := λ _ _, true;
          SetReadDeadline := λ _, false;
          incoming := [] |}
       Demo.st0)
  = Some false.
Proof.
  destruct (X10_deadline_error_aborts
              {| Deadline := Demo.in_2s;
                 Now := λ k, Demo.T0 + Z.of_nat k;
                 chooseProtocol := Some Demo.target4;
                 IPAddr_String := Demo.addr_String;
                 ListenPacket := λ _ _, true;
                 Getpid := 70123;
                 Marshal := icmp.Message_Marshal;
                 WriteTo := λ _ _, true;
                 SetReadDeadline := λ _, false;
                 incoming := [] |}
              Demo.st0 Demo.target4
              (Demo.request Demo.target4) (Demo.reply Demo.target4))
    as [-> _]; [split; by_running|reflexivity|reflexivity].
Defined.

Lemma Time_Sub_nonpos (t u : Time) : t ≤ u → Time_Sub t u ≤ 0.
Proof.
  intros H. unfold Time_Sub. cbv zeta.
  destruct (Z.ltb_spec (t - u) minDuration); [unfold minDuration; lia|].
  destruct (Z.ltb_spec maxDuration (t - u)); [unfold maxDuration in *|]; lia.
Qed.

(** X11. The probe does not look at whether the deadline of its context
    has passed already. If it has when the probe is entered (and the
    clock reads later than the largest Duration after the zero time and
    does not run backwards), a probe whose calls succeed still opens its
    socket and sends its request, and then fails on its first read,
    which times out: it returns [false], whatever arrives. *)
Theorem X11_expired_context_still_sends
    (w : World) (st : State) (ip : IPAddr) (wb0 wb : bytes) :
  Listens w st ip wb0 wb →
  (Deadline w).1 ≤ Now w 1 →
  - minDuration < Now w 0 →
  Now w 0 ≤ Now w 1 →
  (∀ t a, head (incoming w) = Some (t, a) → Now w 1 ≤ t) →
  result (ProbeICMP w st) = Some false
  ∧ packets_sent (final_state (ProbeICMP w st)) = (packets_sent st + 1)%nat
  ∧ reads_issued (final_state (ProbeICMP w st)) = (reads_issued st + 1)%nat.
Proof.
  intros HL Hexp Hyear Hclock Harr.
  assert (zeroTime < probe_deadline w ≤ Now w 0) as Hpast.
  { unfold probe_deadline, Time_Add, zeroTime.
    pose proof (Time_Sub_ge (Deadline w).1 (Now w 1)).
    pose proof (Time_Sub_nonpos (Deadline w).1 (Now w 1) Hexp). lia. }
  assert (listening_deadline w = Some (probe_deadline w)) as Hrdl.
  { unfold listening_deadline, read_deadline, Time_IsZero.
    destruct (Z.eqb_spec (probe_deadline w) zeroTime); [lia|done]. }
  assert (listen_result w ip (replyType_of ip) wb (listening_deadline w) 1500
            (incoming w) = Some false
          ∧ listen_events w ip (replyType_of ip) wb (listening_deadline w)
              1500 (incoming w) = ev_timeout) as [Ha He].
  { rewrite Hrdl. destruct (incoming w) as [|[t a] q] eqn:Hq; [done|].
    cbn [listen_result listen_events].
    rewrite verdict_deadline; [done|].
    simpl. apply Z.leb_le. specialize (Harr t a eq_refl). lia. }
  destruct (ProbeICMP_trace_skip w st ip wb0 wb [] (incoming w) HL eq_refl
              (Forall_nil_2 _)) as [Hr Htr].
  cbv zeta in Hr, Htr. rewrite Ha in Hr, Htr. rewrite He in Htr.
  split; [done|].
  unfold packets_sent, reads_issued. rewrite Htr.
  rewrite !list.filter_app, !length_app, setup_events_reads.
  change (length (filter (λ e, is_write e = true) (setup_events w st ip wb0)))
    with 1%nat.
  split; simpl; lia.
Qed.

Lemma X11_witness :
  result
    (ProbeICMP
       (Demo.world Demo.target4 (Demo.T0 - Demo.second, true)
          [(Demo.T0 + Demo.second,
            ArrPacket (Demo.reply Demo.target4) "192.0.2.1")])
       Demo.st0)
  = Some false.
Proof.
  apply (X11_expired_context_still_sends
           (Demo.world Demo.target4 (Demo.T0 - Demo.second, true)
              [(Demo.T0 + Demo.second,
                ArrPacket (Demo.reply Demo.target4) "192.0.2.1")])
           Demo.st0 Demo.target4
           (Demo.request Demo.target4) (Demo.reply Demo.target4)).
  - demo_listens.
  - by_running.
  - by_running.
  - by_running.
  - intros t a H. injection H as <- <-. by_running.
Defined.

(** ** More on the sequence numbers *)

Lemma sequential_calls_counter (n : nat) (st : State) :
  icmpSequence (sequential_calls n st).2
  = if decide (n = 0%nat) then icmpSequence st
    else (icmpSequence st + Z.of_nat n) mod 65536.
Proof.
  revert st. induction n as [|n IH]; intros st; [done|].
  cbn [sequential_calls getICMPSequence].
  specialize (IH {| icmpSequence := uint16_incr (icmpSequence st);
                    open_sockets := open_sockets st;
                    trace := trace st |}).
  destruct (sequential_calls n _) as [vs st'].
  cbn [snd fst icmpSequence] in *. rewrite IH.
  rewrite (decide_False (P := S n = 0%nat)) by done.
  destruct (decide (n = 0%nat)) as [->|_]; [done|].
  unfold uint16_incr. rewrite Zplus_mod_idemp_l. f_equal. lia.
Qed.

(** X12. The sequence numbers repeat with period 65536 and no sooner:
    of calls made one after the other, the one 65536 calls after another
    returns the same value, so more than 65536 calls never return
    pairwise distinct values; and after [n > 0] calls the counter is its
    start value plus [n], modulo 65536. *)
Theorem X12_sequence_period (n : nat) (st : State) :
  (∀ j v,
     (sequential_calls n st).1 !! j = Some v →
     Z.of_nat j + 65536 < Z.of_nat n →
     (sequential_calls n st).1 !! (j + Z.to_nat 65536)%nat = Some v)
  ∧ (65536 < Z.of_nat n → ¬ NoDup (sequential_calls n st).1)
  ∧ (0 < Z.of_nat n →
     icmpSequence (sequential_calls n st).2
     = (icmpSequence st + Z.of_nat n) mod 65536).
Proof.
  assert (∀ j v,
            (sequential_calls n st).1 !! j = Some v →
            Z.of_nat j + 65536 < Z.of_nat n →
            (sequential_calls n st).1 !! (j + Z.to_nat 65536)%nat = Some v)
    as Hperiod.
  { intros j v. rewrite sequential_calls_tickets, !list_lookup_fmap.
    intros [i [Hi ->]]%fmap_Some Hn.
    apply lookup_seq in Hi as [-> _].
    rewrite lookup_seq_lt by lia. cbn [fmap option_fmap option_map].
    f_equal. unfold Concurrent.ticket. cbn [plus].
    replace (icmpSequence st + Z.of_nat (j + Z.to_nat 65536) + 1)
      with (icmpSequence st + Z.of_nat j + 1 + 1 * 65536) by lia.
    by rewrite Z_mod_plus_full. }
  split_and!; [exact Hperiod| |].
  - intros Hn Hnd.
    assert (is_Some ((sequential_calls n st).1 !! 0%nat)) as [v Hv].
    { rewrite sequential_calls_tickets, list_lookup_fmap, fmap_is_Some.
      apply lookup_lt_is_Some. rewrite length_seq. lia. }
    pose proof (Hperiod 0%nat v Hv ltac:(lia)) as Hv'.
    pose proof (NoDup_lookup _ _ _ _ Hnd Hv Hv'). lia.
  - intros Hn. rewrite sequential_calls_counter.
    rewrite decide_False by lia. done.
Qed.

Lemma X12_witness :
  icmpSequence (sequential_calls 3 Demo.st0).2 = 9.
Proof.
  destruct (X12_sequence_period 3 Demo.st0) as (_ & _ & ->); by_running.
Defined.

(** X13. [getICMPSequence] under its mutex: however the statements of
    concurrent calls are interleaved, at most one goroutine is past
    [Lock] at any time; the mutex is held exactly while one is, so it is
    released whenever no call is under way; and some goroutine can
    always take its next step, so the calls never deadlock. *)
Theorem X13_mutual_exclusion (s0 : Z) (vs : list Z) (σ : Concurrent.Shared) :
  0 ≤ s0 < 65536 →
  Concurrent.run (Concurrent.init s0) vs σ →
  (∀ t1 t2,
     Concurrent.pcs σ t1 ≠ Concurrent.Idle →
     Concurrent.pcs σ t2 ≠ Concurrent.Idle →
     t1 = t2)
  ∧ (Concurrent.locked σ = false ↔ Concurrent.quiescent σ)
  ∧ (∃ l σ', Concurrent.step σ l σ').
Proof.
  intros Hs0 Hrun.
  pose proof (invariant_run s0 Hs0 vs σ Hrun) as Hinv.
  split_and!.
  - intros t1 t2 H1 H2.
    destruct (invariant_holder s0 vs σ t1 Hinv H1) as [_ [Hidle _]].
    destruct (decide (t2 = t1)) as [->|Hne]; [done|].
    by rewrite (Hidle t2 Hne) in H2.
  - destruct Hinv as [_ Hst]. cbv zeta in Hst.
    destruct (Concurrent.locked σ).
    + split; [done|]. intros Hq.
      destruct Hst as [t [_ Hpc]]. by rewrite (Hq t) in Hpc.
    + by destruct Hst.
  - destruct Hinv as [_ Hst]. cbv zeta in Hst.
    destruct (Concurrent.locked σ) eqn:Hl.
    + destruct Hst as [t [_ Hpc]].
      destruct (Concurrent.pcs σ t) eqn:Ht; [done| | | |].
      * eexists _, _. by apply (Concurrent.step_load σ t).
      * eexists _, _. by apply (Concurrent.step_store σ t).
      * eexists _, _. by apply (Concurrent.step_result σ t).
      * eexists _, _. by apply (Concurrent.step_Unlock σ t).
    + destruct Hst as [Hq _].
      eexists _, _. by apply (Concurrent.step_Lock σ 0%nat).
Qed.

Lemma X13_witness :
  Concurrent.locked
    (Concurrent.exec [0; 1; 0; 0; 1; 0; 0; 1]%nat (Concurrent.init 65535)).2
  = false
  ↔ Concurrent.quiescent
      (Concurrent.exec [0; 1; 0; 0; 1; 0; 0; 1]%nat (Concurrent.init 65535)).2.
Proof.
  eapply (X13_mutual_exclusion 65535); [split; by_running|apply exec_sound].
Defined.
